(** * Verification of the cache subsystem (src/core/cache_manager.py)

    A shallow embedding of [CacheEntry], [Cache] and [CacheManager] and the
    proofs of the properties the specification states about them.

    Modelling conventions
    - Python integers (sizes, counters, limits) are [Z]; nothing wraps.
    - [time.time()] is a clock oracle [clock : nat -> Z]: the n-th reading of
      the clock made by the program returns [clock n].  Every function that
      reads the clock takes the index of the next reading and returns the
      index after its last reading.  Time stamps, TTLs and the sweep
      interval are whole numbers of seconds; the rounding of the floats of
      the source is not modelled.
    - [OrderedDict] is an association list in iteration order, without
      duplicate keys.
    - Objects mutated in place (a [CacheEntry] touched by [access]) are
      written back at their position in the dictionary.
    - A [while] loop that the source does not bound takes fuel and returns
      [None] when the fuel runs out. *)

From stdpp Require Import prelude strings.
From Stdlib Require QArith.

Open Scope Z_scope.

(** ** Cached values

  What [CacheEntry._estimate_size] distinguishes by [isinstance]. *)
#[warnings="-register-all"]
Inductive pyvalue : Type :=
| Surface (width height : N)             (* pg.Surface *)
| Group (sprites : nat)                  (* pg.sprite.Group, [sprites = len] *)
| Seq (items : list pyvalue)             (* list or tuple *)
| Dict (items : list (pyvalue * pyvalue))(* dict, as its items() *)
| Other (ident : Z).                     (* any other object *)

(** ** Cache policies *)
Module CachePolicy.
Definition LRU : string := "lru".
Definition LFU : string := "lfu".
Definition FIFO : string := "fifo".
Definition TTL : string := "ttl".
End CachePolicy.

(** ** collections.OrderedDict *)
Module OrderedDict.
Section OrderedDict.
Context {K V : Type} `{EqDecision K}.

Definition t := list (K * V).

(** [d.get(k)] *)
Fixpoint get (d : t) (k : K) : option V :=
  match d with
  | [] => None
  | (k', v) :: d' => if decide (k = k') then Some v else get d' k
  end.

(** [k in d] *)
Definition contains (d : t) (k : K) : bool :=
  match get d k with Some _ => true | None => false end.

(** [d.pop(k, None)] *)
Fixpoint pop (d : t) (k : K) : option V * t :=
  match d with
  | [] => (None, [])
  | (k', v) :: d' =>
      if decide (k = k') then (Some v, d')
      else let '(r, d'') := pop d' k in (r, (k', v) :: d'')
  end.

(** [d[k] = v]: an existing key keeps its position *)
Fixpoint set (d : t) (k : K) (v : V) : t :=
  match d with
  | [] => [(k, v)]
  | (k', v') :: d' =>
      if decide (k = k') then (k, v) :: d' else (k', v') :: set d' k v
  end.

(** [d.move_to_end(k)], for a key of [d] *)
Definition move_to_end (d : t) (k : K) : t :=
  match pop d k with
  | (Some v, d') => d' ++ [(k, v)]
  | (None, _) => d
  end.

(** [d.keys()] *)
Definition keys (d : t) : list K := map fst d.

(** [d.values()] *)
Definition values (d : t) : list V := map snd d.
End OrderedDict.
Arguments t : clear implicits.
End OrderedDict.

(** ** builtins.sum over integers *)
Definition py_sum (l : list Z) : Z := fold_left Z.add l 0.

(** ** builtins.min(iterable, key=f): the first item whose measure is the
  least *)
Fixpoint min_by {A : Type} (f : A -> Z) (x : A) (l : list A) : A :=
match l with
| [] => x
| y :: l' => if f y <? f x then min_by f y l' else min_by f x l'
end.

(** ** CacheEntry *)
Module CacheEntry.
Section CacheEntry.
Context {K : Type}.
Variable clock : nat -> Z.

Record t := mk {
  key : K;
  value : pyvalue;
  created_at : Z;
  last_accessed : Z;
  access_count : Z;
  ttl : option Z;
  size : Z
}.

(** [_estimate_size] *)
Fixpoint _estimate_size (v : pyvalue) : Z :=
  match v with
  | Surface w h => Z.of_N w * Z.of_N h * 4
  | Group n => Z.of_nat n * 64
  | Seq items => py_sum (map _estimate_size items)
  | Dict items =>
      py_sum (map (fun kv => _estimate_size (fst kv) + _estimate_size (snd kv))
                  items)
  | Other _ => 64
  end.

(** [__init__]: two readings of the clock *)
Definition init (k : K) (v : pyvalue) (ttl : option Z) (now : nat)
  : t * nat :=
  ({| key := k; value := v;
      created_at := clock now;
      last_accessed := clock (S now);
      access_count := 0;
      ttl := ttl;
      size := _estimate_size v |},
   S (S now)).

(** [access]: the value, and the entry as mutated *)
Definition access (e : t) (now : nat) : pyvalue * t * nat :=
  (value e,
   {| key := key e; value := value e;
      created_at := created_at e;
      last_accessed := clock now;
      access_count := access_count e + 1;
      ttl := ttl e;
      size := size e |},
   S now).

(** [is_expired]: reads the clock only when the entry has a TTL *)
Definition is_expired (e : t) (now : nat) : bool * nat :=
  match ttl e with
  | None => (false, now)
  | Some d => (bool_decide (clock now - created_at e > d), S now)
  end.
End CacheEntry.
Arguments t : clear implicits.
End CacheEntry.

(** ** Cache *)
Module Cache.
Section Cache.
Context {K : Type} `{EqDecision K}.
Variable clock : nat -> Z.

Record t := mk {
  name : string;
  max_size : Z;
  max_memory : Z;
  policy : string;
  default_ttl : option Z;
  _entries : OrderedDict.t K (CacheEntry.t K);
  _total_memory : Z;
  _hits : Z;
  _misses : Z
}.

(** Assignments to one attribute *)
Definition set_entries (c : t) (d : OrderedDict.t K (CacheEntry.t K)) : t :=
  mk (name c) (max_size c) (max_memory c) (policy c) (default_ttl c)
     d (_total_memory c) (_hits c) (_misses c).

Definition set_total_memory (c : t) (m : Z) : t :=
  mk (name c) (max_size c) (max_memory c) (policy c) (default_ttl c)
     (_entries c) m (_hits c) (_misses c).

Definition set_hits (c : t) (n : Z) : t :=
  mk (name c) (max_size c) (max_memory c) (policy c) (default_ttl c)
     (_entries c) (_total_memory c) n (_misses c).

Definition set_misses (c : t) (n : Z) : t :=
  mk (name c) (max_size c) (max_memory c) (policy c) (default_ttl c)
     (_entries c) (_total_memory c) (_hits c) n.

(** [__init__] *)
Definition init (name : string) (max_size max_memory : Z) (policy : string)
    (ttl : option Z) : t :=
  mk name max_size max_memory policy ttl [] 0 0 0.

(** [remove] *)
Definition remove (c : t) (k : K) : bool * t :=
  let '(entry, d) := OrderedDict.pop (_entries c) k in
  let c := set_entries c d in
  match entry with
  | Some e => (true, set_total_memory c (_total_memory c - CacheEntry.size e))
  | None => (false, c)
  end.

(** [get] *)
Definition get (c : t) (k : K) (default : pyvalue) (now : nat)
  : pyvalue * t * nat :=
  match OrderedDict.get (_entries c) k with
  | None => (default, set_misses c (_misses c + 1), now)
  | Some entry =>
      let '(expired, now) := CacheEntry.is_expired clock entry now in
      if expired then
        let c := snd (remove c k) in
        (default, set_misses c (_misses c + 1), now)
      else
        let c := set_hits c (_hits c + 1) in
        let '(value, entry, now) := CacheEntry.access clock entry now in
        let c := set_entries c (OrderedDict.set (_entries c) k entry) in
        let c :=
          if String.eqb (policy c) CachePolicy.LRU
          then set_entries c (OrderedDict.move_to_end (_entries c) k)
          else c in
        (value, c, now)
  end.

(** [clear] *)
Definition clear (c : t) : t :=
  set_misses (set_hits (set_total_memory (set_entries c []) 0) 0) 0.

(** The list comprehension of [_evict_expired] *)
Fixpoint expired_keys (items : list (K * CacheEntry.t K)) (now : nat)
  : list K * nat :=
  match items with
  | [] => ([], now)
  | (k, entry) :: items' =>
      let '(expired, now) := CacheEntry.is_expired clock entry now in
      let '(ks, now) := expired_keys items' now in
      (if expired then k :: ks else ks, now)
  end.

(** [_evict_expired] *)
Definition _evict_expired (c : t) (now : nat) : t * nat :=
  let '(ks, now) := expired_keys (_entries c) now in
  (fold_left (fun c k => snd (remove c k)) ks c, now).

(** [self._entries[k].access_count]; a key of the dictionary is never
    missing (it would be a KeyError) *)
Definition access_count_of (d : OrderedDict.t K (CacheEntry.t K)) (k : K) : Z :=
  match OrderedDict.get d k with
  | Some e => CacheEntry.access_count e
  | None => 0
  end.

(** [_evict_one] *)
Definition _evict_one (c : t) : bool * t :=
  match OrderedDict.keys (_entries c) with
  | [] => (false, c)
  | first :: others =>
      let k :=
        if String.eqb (policy c) CachePolicy.LRU then first
        else if String.eqb (policy c) CachePolicy.LFU then
          min_by (access_count_of (_entries c)) first others
        else if String.eqb (policy c) CachePolicy.FIFO then first
        else first in
      remove c k
  end.

(** First loop of [_evict_if_needed]:
    [while len(self._entries) >= self.max_size: self._evict_one()] *)
Fixpoint evict_by_size (fuel : nat) (c : t) : option t :=
  match fuel with
  | O => None
  | S fuel =>
      if bool_decide (Z.of_nat (length (_entries c)) >= max_size c)
      then evict_by_size fuel (snd (_evict_one c))
      else Some c
  end.

(** Second loop of [_evict_if_needed]:
    [while self._total_memory + new_size > self.max_memory:
         if not self._evict_one(): break] *)
Fixpoint evict_by_memory (fuel : nat) (c : t) (new_size : Z) : option t :=
  match fuel with
  | O => None
  | S fuel =>
      if bool_decide (_total_memory c + new_size > max_memory c) then
        let '(evicted, c) := _evict_one c in
        if evicted then evict_by_memory fuel c new_size else Some c
      else Some c
  end.

(** [_evict_if_needed] *)
Definition _evict_if_needed (fuel : nat) (c : t) (new_size : Z) (now : nat)
  : option (t * nat) :=
  let '(c, now) := _evict_expired c now in
  match evict_by_size fuel c with
  | None => None
  | Some c =>
      match evict_by_memory fuel c new_size with
      | None => None
      | Some c => Some (c, now)
      end
  end.

(** [ttl or self.default_ttl]: [None] and zero are falsy *)
Definition ttl_or (ttl default : option Z) : option Z :=
  match ttl with
  | Some d => if decide (d = 0) then default else Some d
  | None => default
  end.

(** [put] *)
Definition put (fuel : nat) (c : t) (k : K) (v : pyvalue) (ttl : option Z)
    (now : nat) : option (t * nat) :=
  let c := if OrderedDict.contains (_entries c) k then snd (remove c k) else c in
  let '(entry, now) :=
    CacheEntry.init clock k v (ttl_or ttl (default_ttl c)) now in
  match _evict_if_needed fuel c (CacheEntry.size entry) now with
  | None => None
  | Some (c, now) =>
      let c := set_entries c (OrderedDict.set (_entries c) k entry) in
      Some (set_total_memory c (_total_memory c + CacheEntry.size entry), now)
  end.

(** The dictionary returned by [get_stats]; [hit_rate] is the exact
    quotient, which the source rounds to a float *)
Record stats := mk_stats {
  stats_name : string;
  stats_size : Z;
  stats_memory : Z;
  stats_hits : Z;
  stats_misses : Z;
  stats_hit_rate : QArith_base.Q;
  stats_policy : string
}.

(** [get_stats] *)
Definition get_stats (c : t) : stats :=
  let total_requests := _hits c + _misses c in
  let hit_rate :=
    if bool_decide (total_requests > 0)
    then QArith_base.Qmake (_hits c) (Z.to_pos total_requests)
    else QArith_base.Qmake 0 1 in
  mk_stats (name c) (Z.of_nat (length (_entries c))) (_total_memory c)
           (_hits c) (_misses c) hit_rate (policy c).
End Cache.
Arguments t : clear implicits.
End Cache.

(** ** CacheManager *)
Module CacheManager.
Section CacheManager.
Context {K : Type} `{EqDecision K}.
Variable clock : nat -> Z.

(** [_caches] is a [dict]: it iterates in insertion order.  The singleton
    machinery ([__new__], [_instance]) is left out: a manager is a value. *)
Record t := mk {
  _caches : OrderedDict.t string (Cache.t K);
  _last_gc_time : Z;
  _gc_interval : Z
}.

Definition set_caches (m : t) (d : OrderedDict.t string (Cache.t K)) : t :=
  mk d (_last_gc_time m) (_gc_interval m).

Definition set_last_gc_time (m : t) (now : Z) : t :=
  mk (_caches m) now (_gc_interval m).

(** [create_cache]: the new cache and the manager that registers it *)
Definition create_cache (m : t) (name : string) (max_size max_memory : Z)
    (policy : string) (ttl : option Z) : Cache.t K * t :=
  let cache := Cache.init name max_size max_memory policy ttl in
  (cache, set_caches m (OrderedDict.set (_caches m) name cache)).

(** [_create_default_caches] *)
Definition _create_default_caches (m : t) : t :=
  let m := snd (create_cache m "tile_surfaces" 200 (50 * 1024 * 1024)
                  CachePolicy.LRU None) in
  let m := snd (create_cache m "animation_frames" 100 (30 * 1024 * 1024)
                  CachePolicy.LFU None) in
  let m := snd (create_cache m "collision_groups" 10 (10 * 1024 * 1024)
                  CachePolicy.LRU (Some 5)) in
  let m := snd (create_cache m "level_data" 5 (20 * 1024 * 1024)
                  CachePolicy.LRU None) in
  snd (create_cache m "sounds" 50 (20 * 1024 * 1024) CachePolicy.LFU None).

(** [__init__] of the first instance *)
Definition init (now : nat) : t * nat :=
  let m := _create_default_caches (mk [] 0 0) in
  (mk (_caches m) (clock now) 60, S now).

(** [get_cache] *)
Definition get_cache (m : t) (name : string) : option (Cache.t K) :=
  OrderedDict.get (_caches m) name.

(** [get] *)
Definition get (m : t) (cache_name : string) (k : K) (default : pyvalue)
    (now : nat) : pyvalue * t * nat :=
  match OrderedDict.get (_caches m) cache_name with
  | Some cache =>
      let '(v, cache, now) := Cache.get clock cache k default now in
      (v, set_caches m (OrderedDict.set (_caches m) cache_name cache), now)
  | None => (default, m, now)
  end.

(** [put] *)
Definition put (fuel : nat) (m : t) (cache_name : string) (k : K)
    (v : pyvalue) (ttl : option Z) (now : nat) : option (t * nat) :=
  match OrderedDict.get (_caches m) cache_name with
  | Some cache =>
      match Cache.put clock fuel cache k v ttl now with
      | Some (cache, now) =>
          Some (set_caches m (OrderedDict.set (_caches m) cache_name cache),
                now)
      | None => None
      end
  | None => Some (m, now)
  end.

(** [clear_cache] *)
Definition clear_cache (m : t) (name : string) : t :=
  match OrderedDict.get (_caches m) name with
  | Some cache =>
      set_caches m (OrderedDict.set (_caches m) name (Cache.clear cache))
  | None => m
  end.

(** [clear_all] *)
Definition clear_all (m : t) : t :=
  set_caches m (map (fun nc => (fst nc, Cache.clear (snd nc))) (_caches m)).

(** [get_total_memory] *)
Definition get_total_memory (m : t) : Z :=
  py_sum (map Cache._total_memory (OrderedDict.values (_caches m))).

(** The loop of [_run_garbage_collection]:
    [for cache in self._caches.values(): cache._evict_expired()] *)
Fixpoint sweep (d : OrderedDict.t string (Cache.t K)) (now : nat)
  : OrderedDict.t string (Cache.t K) * nat :=
  match d with
  | [] => ([], now)
  | (name, cache) :: d' =>
      let '(cache, now) := Cache._evict_expired clock cache now in
      let '(d', now) := sweep d' now in
      ((name, cache) :: d', now)
  end.

(** [_run_garbage_collection]; the flag tells whether [gc.collect()], which
    acts on the interpreter's heap and on no cache, was called *)
Definition _run_garbage_collection (m : t) (now : nat) : t * bool * nat :=
  let '(d, now) := sweep (_caches m) now in
  let m := set_caches m d in
  let total_memory := get_total_memory m in
  (m, bool_decide (total_memory > 200 * 1024 * 1024), now).

(** [update] *)
Definition update (m : t) (now : nat) : t * bool * nat :=
  let current_time := clock now in
  let now := S now in
  if bool_decide (current_time - _last_gc_time m > _gc_interval m) then
    let '(m, collected, now) := _run_garbage_collection m now in
    (set_last_gc_time m current_time, collected, now)
  else (m, false, now).

(** [shutdown] *)
Definition shutdown (m : t) : t :=
  set_caches (clear_all m) [].

(** The dictionary returned by [get_stats] *)
Record stats := mk_stats {
  stats_total_memory : Z;
  stats_cache_count : Z;
  stats_caches : list (string * Cache.stats)
}.

(** [get_stats] *)
Definition get_stats (m : t) : stats :=
  mk_stats (get_total_memory m)
           (Z.of_nat (length (_caches m)))
           (map (fun nc => (fst nc, Cache.get_stats (snd nc))) (_caches m)).
End CacheManager.
Arguments t : clear implicits.
End CacheManager.

(** ** SceneManager (src/controllers/scene_manager.py): the clean-up of the
    caches between scenes *)
Module SceneManager.
Section SceneManager.
Context {K : Type} `{EqDecision K}.

(** The scene classes of src/controllers/scenes *)
Inductive scene : Type := MenuScene | SettingsScene | GameScene | DialogScene.

(** [type(scene).__name__.lower().replace("scene", "")] *)
Definition scene_type (s : scene) : string :=
  match s with
  | MenuScene => "menu"
  | SettingsScene => "settings"
  | GameScene => "game"
  | DialogScene => "dialog"
  end.

(** [isinstance(scene, GameScene)]: no scene class derives from another *)
Definition is_game_scene (s : scene) : bool :=
  match s with
  | GameScene => true
  | _ => false
  end.

(** The loop of [_cleanup_scene]:
    [while tile_cache._total_memory > 30 * 1024 * 1024:
         if not tile_cache._evict_one(): break] *)
Fixpoint trim_tile_cache (fuel : nat) (c : Cache.t K) : option (Cache.t K) :=
  match fuel with
  | O => None
  | S fuel =>
      if bool_decide (Cache._total_memory c > 30 * 1024 * 1024) then
        let '(evicted, c) := Cache._evict_one c in
        if evicted then trim_tile_cache fuel c else Some c
      else Some c
  end.

(** [_cleanup_scene], on the manager of the caches; the flag tells whether
    [gc.collect()] was called *)
Definition _cleanup_scene (fuel : nat) (m : CacheManager.t K) (s : scene)
  : option (CacheManager.t K * bool) :=
  if String.eqb (scene_type s) "menu" || String.eqb (scene_type s) "settings"
  then Some (m, false)
  else
    let cleaned :=
      if is_game_scene s then
        let m :=
          match CacheManager.get_cache m "collision_groups" with
          | Some collision_cache =>
              CacheManager.set_caches m
                (OrderedDict.set (CacheManager._caches m) "collision_groups"
                   (Cache.clear collision_cache))
          | None => m
          end in
        let total_memory := CacheManager.get_total_memory m in
        if bool_decide (total_memory > 150 * 1024 * 1024) then
          match CacheManager.get_cache m "tile_surfaces" with
          | Some tile_cache =>
              match trim_tile_cache fuel tile_cache with
              | Some tile_cache =>
                  Some (CacheManager.set_caches m
                          (OrderedDict.set (CacheManager._caches m)
                             "tile_surfaces" tile_cache))
              | None => None
              end
          | None => Some m
          end
        else Some m
      else Some m in
    match cleaned with
    | Some m => Some (m, true)
    | None => None
    end.
End SceneManager.
End SceneManager.

(** ** Level (src/models/world/level.py): the keys it caches under *)
Module Level.

(** What [_invalidate_collision_cache] reads of a level: the prefix of its
    keys and, for each layer of [_layers.values()], the keys of the layer's
    [_trigger_tiles] *)
Record t := mk {
  _cache_key_prefix : string;
  _layers : list (list string)
}.

(** The list [cache_keys] that [_invalidate_collision_cache] builds *)
Definition cache_keys (level : t) : list string :=
  [String.append (_cache_key_prefix level) "_collidable";
   String.append (_cache_key_prefix level) "_hazard";
   String.append (_cache_key_prefix level) "_platform"]
  ++ flat_map
       (fun layer =>
          map (fun trigger_id =>
                 String.append (_cache_key_prefix level)
                   (String.append "_trigger_" trigger_id))
              layer)
       (_layers level).

(** [_invalidate_collision_cache] *)
Definition _invalidate_collision_cache (level : t)
    (m : CacheManager.t string) : CacheManager.t string :=
  match CacheManager.get_cache m "collision_groups" with
  | Some collision_cache =>
      CacheManager.set_caches m
        (OrderedDict.set (CacheManager._caches m) "collision_groups"
           (fold_left (fun c key => snd (Cache.remove c key))
                      (cache_keys level) collision_cache))
  | None => m
  end.
End Level.

(** * Specification vocabulary *)

Section Vocabulary.
Context {K : Type} `{EqDecision K}.
Variable clock : nat -> Z.

(** Sum of the [size] fields of the stored entries *)
Definition total_size (d : OrderedDict.t K (CacheEntry.t K)) : Z :=
  foldr (fun ke acc => CacheEntry.size ke.2 + acc) 0 d.

(** Number of stored entries, [len(self._entries)] *)
Definition entry_count (c : Cache.t K) : Z :=
  Z.of_nat (length (Cache._entries c)).

(** The caches a program can hold: a fresh cache, and any cache returned
    by a public operation (or by the manager's sweep) on such a cache, at
    any reading of the clock. *)
Inductive reachable : Cache.t K -> Prop :=
| reach_init name max_size max_memory policy ttl :
    reachable (Cache.init name max_size max_memory policy ttl)
| reach_get c k default now :
    reachable c -> reachable (Cache.get clock c k default now).1.2
| reach_put fuel c k v ttl now c' now' :
    reachable c ->
    Cache.put clock fuel c k v ttl now = Some (c', now') ->
    reachable c'
| reach_remove c k :
    reachable c -> reachable (Cache.remove c k).2
| reach_clear c :
    reachable c -> reachable (Cache.clear c)
| reach_sweep c now :
    reachable c -> reachable (Cache._evict_expired clock c now).1.

(** Representation invariant of a cache *)
Record cache_inv (c : Cache.t K) : Prop := {
  inv_keys : NoDup (OrderedDict.keys (Cache._entries c));
  inv_memory : Cache._total_memory c = total_size (Cache._entries c);
  inv_sizes : Forall (fun ke => 0 <= CacheEntry.size ke.2) (Cache._entries c)
}.

(** [c'] is [c] after entries were dropped and their sizes subtracted from
    the memory counter; nothing else changed *)
Record evicted_from (c c' : Cache.t K) : Prop := {
  ev_name : Cache.name c' = Cache.name c;
  ev_max_size : Cache.max_size c' = Cache.max_size c;
  ev_max_memory : Cache.max_memory c' = Cache.max_memory c;
  ev_policy : Cache.policy c' = Cache.policy c;
  ev_default_ttl : Cache.default_ttl c' = Cache.default_ttl c;
  ev_hits : Cache._hits c' = Cache._hits c;
  ev_misses : Cache._misses c' = Cache._misses c;
  ev_entries : sublist (Cache._entries c') (Cache._entries c);
  ev_memory :
    Cache._total_memory c' - total_size (Cache._entries c')
    = Cache._total_memory c - total_size (Cache._entries c)
}.

(** An entry that no reading of the clock finds expired *)
Definition never_expires (e : CacheEntry.t K) : Prop :=
  forall s, (CacheEntry.is_expired clock e s).1 = false.

(** The entry that [put(k, v, ttl)] creates at reading [now] of the clock *)
Definition new_entry (cache : Cache.t K) (k : K) (v : pyvalue)
    (ttl : option Z) (now : nat) : CacheEntry.t K :=
  (CacheEntry.init clock k v (Cache.ttl_or ttl (Cache.default_ttl cache)) now).1.

(** The sequence [put(a); put(b); get(a); put(c)] *)
Definition put_put_get_put (fuel : nat) (cache : Cache.t K) (a b c : K)
    (va vb vc : pyvalue) (ta tb tc : option Z) (default : pyvalue)
    (now : nat) : option (Cache.t K) :=
  match Cache.put clock fuel cache a va ta now with
  | None => None
  | Some (cache, now) =>
      match Cache.put clock fuel cache b vb tb now with
      | None => None
      | Some (cache, now) =>
          let '(_, cache, now) := Cache.get clock cache a default now in
          match Cache.put clock fuel cache c vc tc now with
          | None => None
          | Some (cache, _) => Some cache
          end
      end
  end.

(** The sequence [put(a); put(b); get(a); get(a); get(a); put(c)] *)
Definition put_put_get3_put (fuel : nat) (cache : Cache.t K) (a b c : K)
    (va vb vc : pyvalue) (ta tb tc : option Z) (default : pyvalue)
    (now : nat) : option (Cache.t K) :=
  match Cache.put clock fuel cache a va ta now with
  | None => None
  | Some (cache, now) =>
      match Cache.put clock fuel cache b vb tb now with
      | None => None
      | Some (cache, now) =>
          let '(_, cache, now) := Cache.get clock cache a default now in
          let '(_, cache, now) := Cache.get clock cache a default now in
          let '(_, cache, now) := Cache.get clock cache a default now in
          match Cache.put clock fuel cache c vc tc now with
          | None => None
          | Some (cache, _) => Some cache
          end
      end
  end.

End Vocabulary.

(** * Vocabulary of the further properties *)

Section MoreVocabulary.
Context {K : Type} `{EqDecision K}.
Variable clock : nat -> Z.

(** An entry as [CacheEntry.__init__] and [access] leave it, stored under
    its own key *)
Definition entry_wf (ke : K * CacheEntry.t K) : Prop :=
  CacheEntry.key ke.2 = ke.1 /\
  CacheEntry.size ke.2 = CacheEntry._estimate_size (CacheEntry.value ke.2) /\
  0 <= CacheEntry.access_count ke.2.

(** The items that a single pass keeps: each one is tested by [is_expired]
    in turn, at the readings of the clock that follow [now] *)
Fixpoint survivors (items : list (K * CacheEntry.t K)) (now : nat)
  : list (K * CacheEntry.t K) :=
  match items with
  | [] => []
  | (k, entry) :: items' =>
      let '(expired, now) := CacheEntry.is_expired clock entry now in
      if expired then survivors items' now
      else (k, entry) :: survivors items' now
  end.

(** Sum of the sizes of the entries of all the caches of a registry *)
Definition registry_size (d : OrderedDict.t string (Cache.t K)) : Z :=
  foldr (fun nc acc => total_size (Cache._entries nc.2) + acc) 0 d.
End MoreVocabulary.

(** * Concrete caches and clocks used to exercise the theorems *)

(** A clock that advances by one unit at every reading *)
Definition ticking_clock (n : nat) : Z := Z.of_nat n.

(** The result of a [put] that returned *)
Definition put_result {K : Type} (r : option (Cache.t K * nat))
    (otherwise : Cache.t K) : Cache.t K :=
  match r with
  | Some (c, _) => c
  | None => otherwise
  end.

(** An empty LRU cache of two entries and 1000 bytes, without TTL *)
Definition small_lru : Cache.t nat :=
  Cache.init "small" 2 1000 CachePolicy.LRU None.

(** [small_lru] after [put(1, object)] *)
Definition small_lru_1 : Cache.t nat :=
  put_result (Cache.put ticking_clock 3 small_lru 1%nat (Other 1) None 0)
             small_lru.

(** [small_lru_1] after [put(2, object)] *)
Definition small_lru_2 : Cache.t nat :=
  put_result (Cache.put ticking_clock 3 small_lru_1 2%nat (Other 2) None 2)
             small_lru_1.

(** An empty LRU cache of two entries and 100 bytes, without TTL *)
Definition tight_lru : Cache.t nat :=
  Cache.init "tight" 2 100 CachePolicy.LRU None.

(** [tight_lru] after [put(1, object)] *)
Definition tight_lru_1 : Cache.t nat :=
  put_result (Cache.put ticking_clock 3 tight_lru 1%nat (Other 1) None 0)
             tight_lru.

(** [tight_lru_1] after the [put] of a pair of objects, of 128 bytes *)
Definition tight_lru_2 : Cache.t nat :=
  put_result (Cache.put ticking_clock 3 tight_lru_1 2%nat
                (Seq [Other 1; Other 2]) None 2)
             tight_lru_1.

(** An empty LRU cache whose entries live 5 units of time *)
Definition aging_lru : Cache.t nat :=
  Cache.init "aging" 2 1000 CachePolicy.LRU (Some 5).

(** [aging_lru] after [put(1, object)] at time 0 *)
Definition aging_lru_1 : Cache.t nat :=
  put_result (Cache.put ticking_clock 3 aging_lru 1%nat (Other 1) None 0)
             aging_lru.

(** An empty LFU cache of two entries and 1000 bytes, without TTL *)
Definition small_lfu : Cache.t nat :=
  Cache.init "counts" 2 1000 CachePolicy.LFU None.

(** [small_lfu] after [put(1, object)] *)
Definition small_lfu_1 : Cache.t nat :=
  put_result (Cache.put ticking_clock 3 small_lfu 1%nat (Other 1) None 0)
             small_lfu.

(** [small_lfu_1] after [put(2, object)] *)
Definition small_lfu_2 : Cache.t nat :=
  put_result (Cache.put ticking_clock 3 small_lfu_1 2%nat (Other 2) None 2)
             small_lfu_1.

(** An empty LFU cache of two entries and 100 bytes, without TTL *)
Definition tight_lfu : Cache.t nat :=
  Cache.init "tight" 2 100 CachePolicy.LFU None.

(** An LFU cache of two entries that holds key 9, read five times *)
Definition warm_lfu : Cache.t nat :=
  let c := put_result (Cache.put ticking_clock 3 small_lfu 9%nat (Other 9) None 0)
                      small_lfu in
  let c := (Cache.get ticking_clock c 9%nat (Other 0) 2).1.2 in
  let c := (Cache.get ticking_clock c 9%nat (Other 0) 3).1.2 in
  let c := (Cache.get ticking_clock c 9%nat (Other 0) 4).1.2 in
  let c := (Cache.get ticking_clock c 9%nat (Other 0) 5).1.2 in
  (Cache.get ticking_clock c 9%nat (Other 0) 6).1.2.

(** The keys left by a sequence of operations *)
Definition keys_left {K : Type} (r : option (Cache.t K)) : option (list K) :=
  match r with
  | Some c => Some (OrderedDict.keys (Cache._entries c))
  | None => None
  end.

(** A manager without caches, created at time 0 *)
Definition bare_manager : CacheManager.t nat := CacheManager.mk [] 0 60.


(** A clock that reads 0 three times and 61 from then on *)
Definition late_clock (n : nat) : Z := if (n <? 3)%nat then 0 else 61.

(** The manager with its default caches, created at time 0, after
    [put("collision_groups", 1, object)] at time 0; the cache
    "collision_groups" has a TTL of 5 *)
Definition busy_manager (clock : nat -> Z) : CacheManager.t nat :=
  let m := (CacheManager.init clock 0).1 in
  match CacheManager.put clock 11 m "collision_groups" 1%nat (Other 1) None 1 with
  | Some (m, _) => m
  | None => m
  end.

(** [small_lru_2] after a [get(1)], a hit, and a [get(7)], a miss *)
Definition read_lru : Cache.t nat :=
  let c := (Cache.get ticking_clock small_lru_2 1%nat (Other 0) 4).1.2 in
  (Cache.get ticking_clock c 7%nat (Other 0) 5).1.2.

(** The manager with its default caches after
    [put("tile_surfaces", 1, surface)] of a surface of 8000 x 8000 pixels,
    of 256 000 000 bytes *)
Definition heavy_manager : CacheManager.t nat :=
  let m := (CacheManager.init ticking_clock 0).1 in
  match CacheManager.put ticking_clock 3 m "tile_surfaces" 1%nat
          (Surface 8000 8000) None 1 with
  | Some (m, _) => m
  | None => m
  end.

(** * Facts about the dictionary model *)

Section OrderedDictFacts.
Context {K V : Type} `{EqDecision K}.
Implicit Types (d : OrderedDict.t K V) (k : K) (v : V).

Lemma od_get_None d k :
  OrderedDict.get d k = None <-> k ∉ OrderedDict.keys d.
Proof.
  induction d as [|[k' v'] d IH]; simpl.
  - split; [intros _; apply not_elem_of_nil | done].
  - rewrite not_elem_of_cons. case_decide; subst.
    + split; [done | intros [? _]; done].
    + rewrite IH. tauto.
Qed.

Lemma od_get_elem d k v :
  OrderedDict.get d k = Some v -> (k, v) ∈ d.
Proof.
  induction d as [|[k' v'] d IH]; simpl; [done|].
  case_decide; subst.
  - intros [= ->]. apply elem_of_cons; by left.
  - intros Hg. apply elem_of_cons; right; auto.
Qed.

Lemma od_get_split d k v :
  OrderedDict.get d k = Some v ->
  exists d1 d2, d = d1 ++ (k, v) :: d2 /\ k ∉ OrderedDict.keys d1.
Proof.
  induction d as [|[k' v'] d IH]; simpl; [done|].
  case_decide; subst.
  - intros [= ->]. exists [], d. split; [done | apply not_elem_of_nil].
  - intros (d1 & d2 & -> & Hk)%IH.
    exists ((k', v') :: d1), d2. split; [done|].
    simpl. rewrite not_elem_of_cons. done.
Qed.

Lemma od_get_app_absent d1 d2 k :
  k ∉ OrderedDict.keys d1 ->
  OrderedDict.get (d1 ++ d2) k = OrderedDict.get d2 k.
Proof.
  induction d1 as [|[k' v'] d1 IH]; simpl; [done|].
  rewrite not_elem_of_cons. intros [? ?].
  rewrite decide_False by done. auto.
Qed.

Lemma od_get_here d k v : OrderedDict.get ((k, v) :: d) k = Some v.
Proof. simpl. by rewrite decide_True. Qed.

Lemma od_pop_absent d k :
  OrderedDict.get d k = None -> OrderedDict.pop d k = (None, d).
Proof.
  induction d as [|[k' v'] d IH]; simpl; [done|].
  case_decide; [done|]. intros ->%IH. done.
Qed.

Lemma od_pop_app d1 d2 k v :
  k ∉ OrderedDict.keys d1 ->
  OrderedDict.pop (d1 ++ (k, v) :: d2) k = (Some v, d1 ++ d2).
Proof.
  induction d1 as [|[k' v'] d1 IH]; simpl.
  - intros _. by rewrite decide_True.
  - rewrite not_elem_of_cons. intros [? ?].
    rewrite decide_False by done. by rewrite IH.
Qed.

Lemma od_set_absent d k v :
  OrderedDict.get d k = None -> OrderedDict.set d k v = d ++ [(k, v)].
Proof.
  induction d as [|[k' v'] d IH]; simpl; [done|].
  case_decide; [done|]. intros ->%IH. done.
Qed.

Lemma od_set_app d1 d2 k v0 v :
  k ∉ OrderedDict.keys d1 ->
  OrderedDict.set (d1 ++ (k, v0) :: d2) k v = d1 ++ (k, v) :: d2.
Proof.
  induction d1 as [|[k' v'] d1 IH]; simpl.
  - intros _. by rewrite decide_True.
  - rewrite not_elem_of_cons. intros [? ?].
    rewrite decide_False by done. by rewrite IH.
Qed.

Lemma od_get_set d k v : OrderedDict.get (OrderedDict.set d k v) k = Some v.
Proof.
  induction d as [|[k' v'] d IH]; simpl.
  - by rewrite decide_True.
  - case_decide; simpl; [by rewrite decide_True |].
    rewrite decide_False by done. exact IH.
Qed.

Lemma od_get_NoDup d k v :
  NoDup (OrderedDict.keys d) -> (k, v) ∈ d -> OrderedDict.get d k = Some v.
Proof.
  induction d as [|[k' v'] d IH]; simpl.
  - intros _ []%elem_of_nil.
  - intros [Hk' Hnd]%NoDup_cons [[= -> ->]|Hin]%elem_of_cons.
    + by rewrite decide_True.
    + rewrite decide_False; [by apply IH|].
      intros ->. apply Hk'. change k' with (k', v).1.
      by apply (list_elem_of_fmap_2 fst).
Qed.

Lemma od_keys_app d1 d2 :
  OrderedDict.keys (d1 ++ d2) = OrderedDict.keys d1 ++ OrderedDict.keys d2.
Proof. apply map_app. Qed.

Lemma od_length_set d k v :
  (length (OrderedDict.set d k v) <= S (length d))%nat.
Proof.
  induction d as [|[k' v'] d IH]; simpl; [lia|].
  case_decide; simpl; lia.
Qed.
End OrderedDictFacts.

(** * Facts about lists used below *)

Section ListFacts.
Context {A B : Type}.

Lemma sublist_map (f : A -> B) (l1 l2 : list A) :
  sublist l1 l2 -> sublist (map f l1) (map f l2).
Proof. induction 1; simpl; by constructor. Qed.

Lemma sublist_Forall (P : A -> Prop) (l1 l2 : list A) :
  sublist l1 l2 -> Forall P l2 -> Forall P l1.
Proof.
  induction 1 as [|x l1 l2 _ IH|x l1 l2 _ IH]; [done| |];
    rewrite !Forall_cons; intros [? ?]; auto.
Qed.

Lemma sublist_drop_middle (l1 l2 : list A) (x : A) :
  sublist (l1 ++ l2) (l1 ++ x :: l2).
Proof. apply sublist_app; [done|]. by apply sublist_cons. Qed.

Lemma min_by_elem (f : A -> Z) (x : A) (l : list A) :
  min_by f x l ∈ x :: l.
Proof.
  revert x. induction l as [|y l IH]; intros x; simpl.
  - apply elem_of_cons; by left.
  - destruct (f y <? f x).
    + apply elem_of_cons; right. apply IH.
    + specialize (IH x). apply elem_of_cons in IH as [->|?].
      * apply elem_of_cons; by left.
      * apply elem_of_cons; right. apply elem_of_cons; by right.
Qed.

(** [min_by] returns the first item of least measure: the items before it
    are strictly larger, the items after it are not smaller *)
Lemma min_by_split (f : A -> Z) (pre : list A) (x : A) (mid l : list A) :
  Forall (fun y => f x < f y) pre ->
  Forall (fun y => f x <= f y) mid ->
  exists l1 l2,
    pre ++ x :: mid ++ l = l1 ++ min_by f x l :: l2 /\
    Forall (fun y => f (min_by f x l) < f y) l1 /\
    Forall (fun y => f (min_by f x l) <= f y) l2.
Proof.
  revert pre x mid. induction l as [|y l IH]; intros pre x mid Hpre Hmid; simpl.
  - exists pre, mid. by rewrite app_nil_r.
  - destruct (f y <? f x) eqn:Hlt.
    + apply Z.ltb_lt in Hlt.
      destruct (IH (pre ++ x :: mid) y []) as (l1 & l2 & Heq & H1 & H2).
      * rewrite Forall_app, Forall_cons. split_and!; [|lia|].
        -- eapply Forall_impl; [exact Hpre|]. simpl. intros; lia.
        -- eapply Forall_impl; [exact Hmid|]. simpl. intros; lia.
      * done.
      * exists l1, l2. split; [|done]. rewrite <- Heq.
        by rewrite <- app_assoc.
    + apply Z.ltb_ge in Hlt.
      destruct (IH pre x (mid ++ [y])) as (l1 & l2 & Heq & H1 & H2).
      * done.
      * rewrite Forall_app, Forall_singleton. done.
      * exists l1, l2. split; [|done]. rewrite <- Heq.
        by rewrite <- app_assoc.
Qed.

Lemma min_by_first (f : A -> Z) (x : A) (l : list A) :
  exists l1 l2,
    x :: l = l1 ++ min_by f x l :: l2 /\
    Forall (fun y => f (min_by f x l) < f y) l1 /\
    Forall (fun y => f (min_by f x l) <= f y) l2.
Proof. by apply (min_by_split f [] x [] l). Qed.
End ListFacts.

(** * The size estimator never returns a negative size *)

Lemma py_sum_nonneg (l : list Z) : Forall (fun x => 0 <= x) l -> 0 <= py_sum l.
Proof.
assert (forall a, 0 <= a -> Forall (fun x => 0 <= x) l ->
                  0 <= fold_left Z.add l a) as Hgen.
{ induction l as [|x l IH]; intros a Ha Hl; simpl; [done|].
  apply Forall_cons in Hl as [Hx Hl]. apply IH; [lia | done]. }
intros Hl. by apply Hgen.
Qed.

Lemma estimate_size_nonneg : forall v : pyvalue, 0 <= CacheEntry._estimate_size v.
Proof.
fix IH 1. intros [w h|n|items|items|ident]; simpl.
- lia.
- lia.
- apply py_sum_nonneg.
  induction items as [|x items IHitems]; simpl; constructor.
  + apply IH.
  + apply IHitems.
- apply py_sum_nonneg.
  induction items as [|[a b] items IHitems]; simpl; constructor.
  + pose proof (IH a). pose proof (IH b). lia.
  + apply IHitems.
- lia.
Qed.

(** * Facts about one cache *)

Section CacheFacts.
Context {K : Type} `{EqDecision K}.
Variable clock : nat -> Z.
Implicit Types (c : Cache.t K) (k : K) (e : CacheEntry.t K).
Implicit Types (d : OrderedDict.t K (CacheEntry.t K)).

Lemma total_size_app d1 d2 :
  total_size (d1 ++ d2) = total_size d1 + total_size d2.
Proof.
  unfold total_size. induction d1 as [|x d1 IH]; simpl; [done|].
  rewrite IH. lia.
Qed.

Lemma total_size_cons x d :
  total_size (x :: d) = CacheEntry.size x.2 + total_size d.
Proof. done. Qed.

Lemma total_size_nonneg d :
  Forall (fun ke => 0 <= CacheEntry.size ke.2) d -> 0 <= total_size d.
Proof.
  unfold total_size. induction 1 as [|x d Hx _ IH]; simpl; lia.
Qed.

Lemma set_entries_same c : Cache.set_entries c (Cache._entries c) = c.
Proof. by destruct c. Qed.

Lemma evicted_refl c : evicted_from c c.
Proof. by split. Qed.

Lemma evicted_trans c1 c2 c3 :
  evicted_from c1 c2 -> evicted_from c2 c3 -> evicted_from c1 c3.
Proof.
  intros [] []. split; try congruence.
  by etrans.
Qed.

Lemma evicted_inv c c' : evicted_from c c' -> cache_inv c -> cache_inv c'.
Proof.
  intros Hev Hinv. split.
  - apply (sublist_NoDup _ (OrderedDict.keys (Cache._entries c))).
    + apply Hinv.
    + apply sublist_map, Hev.
  - pose proof (ev_memory _ _ Hev). pose proof (inv_memory _ Hinv). lia.
  - eapply sublist_Forall; [apply Hev | apply Hinv].
Qed.

Lemma evicted_length c c' :
  evicted_from c c' ->
  (length (Cache._entries c') <= length (Cache._entries c))%nat.
Proof. intros []. by apply sublist_length. Qed.

Lemma evicted_keys c c' k :
  evicted_from c c' ->
  k ∉ OrderedDict.keys (Cache._entries c) ->
  k ∉ OrderedDict.keys (Cache._entries c').
Proof.
  intros [] Hk Hk'. apply Hk.
  eapply elem_of_sublist; [done|]. by apply sublist_map.
Qed.

(** What [remove] does, by cases on the presence of the key *)
Lemma remove_absent c k :
  OrderedDict.get (Cache._entries c) k = None ->
  Cache.remove c k = (false, c).
Proof.
  intros Hg. unfold Cache.remove. rewrite (od_pop_absent _ _ Hg).
  by rewrite set_entries_same.
Qed.

Lemma remove_present c k e :
  OrderedDict.get (Cache._entries c) k = Some e ->
  exists d1 d2,
    Cache._entries c = d1 ++ (k, e) :: d2 /\
    (k ∉ OrderedDict.keys d1) /\
    Cache.remove c k =
      (true,
       Cache.set_total_memory (Cache.set_entries c (d1 ++ d2))
         (Cache._total_memory c - CacheEntry.size e)).
Proof.
  intros (d1 & d2 & Hd & Hk)%od_get_split.
  exists d1, d2. split_and!; [done..|].
  unfold Cache.remove. rewrite Hd, od_pop_app by done. done.
Qed.

Lemma remove_evicted c k : evicted_from c (Cache.remove c k).2.
Proof.
  destruct (OrderedDict.get (Cache._entries c) k) as [e|] eqn:Hg.
  - destruct (remove_present c k e Hg) as (d1 & d2 & Hd & _ & ->).
    split; simpl; try done.
    + rewrite Hd. apply sublist_drop_middle.
    + rewrite Hd, !total_size_app, total_size_cons. simpl. lia.
  - rewrite remove_absent by done. apply evicted_refl.
Qed.

Lemma remove_gone c k :
  NoDup (OrderedDict.keys (Cache._entries c)) ->
  k ∉ OrderedDict.keys (Cache._entries (Cache.remove c k).2).
Proof.
  intros Hnd.
  destruct (OrderedDict.get (Cache._entries c) k) as [e|] eqn:Hg.
  - destruct (remove_present c k e Hg) as (d1 & d2 & Hd & Hk & ->).
    simpl. rewrite Hd, od_keys_app in Hnd. simpl in Hnd.
    apply NoDup_app in Hnd as (_ & _ & [Hk2 _]%NoDup_cons).
    rewrite od_keys_app, not_elem_of_app. done.
  - rewrite remove_absent by done. simpl. by apply od_get_None.
Qed.

(** What [_evict_one] does *)
Lemma evict_one_empty c :
  Cache._entries c = [] -> Cache._evict_one c = (false, c).
Proof. intros Hd. unfold Cache._evict_one. by rewrite Hd. Qed.

Lemma evict_one_nonempty c :
  Cache._entries c <> [] ->
  exists k e d1 d2,
    Cache._entries c = d1 ++ (k, e) :: d2 /\
    (k ∉ OrderedDict.keys d1) /\
    Cache._evict_one c =
      (true,
       Cache.set_total_memory (Cache.set_entries c (d1 ++ d2))
         (Cache._total_memory c - CacheEntry.size e)).
Proof.
  intros Hne. unfold Cache._evict_one.
  destruct (OrderedDict.keys (Cache._entries c)) as [|first others] eqn:Hk.
  { destruct (Cache._entries c); [done | discriminate]. }
  match goal with |- context [Cache.remove c ?x] => set (k := x) end.
  assert (k ∈ OrderedDict.keys (Cache._entries c)) as Hin.
  { rewrite Hk. subst k.
    repeat case_match; try (apply elem_of_cons; by left).
    apply min_by_elem. }
  destruct (OrderedDict.get (Cache._entries c) k) as [e|] eqn:Hg.
  - destruct (remove_present c k e Hg) as (d1 & d2 & ? & ? & ?).
    by exists k, e, d1, d2.
  - by apply od_get_None in Hg.
Qed.

Lemma evict_one_evicted c : evicted_from c (Cache._evict_one c).2.
Proof.
  unfold Cache._evict_one. case_match; [apply evicted_refl|].
  apply remove_evicted.
Qed.

Lemma evict_one_false c :
  (Cache._evict_one c).1 = false ->
  Cache._entries c = [] /\ (Cache._evict_one c).2 = c.
Proof.
  destruct (Cache._entries c) as [|x d] eqn:Hd.
  - rewrite evict_one_empty by done. done.
  - destruct (evict_one_nonempty c) as (?&?&?&?&_&_&->); [by rewrite Hd|].
    done.
Qed.

Lemma evict_one_length c :
  Cache._entries c <> [] ->
  S (length (Cache._entries (Cache._evict_one c).2))
  = length (Cache._entries c).
Proof.
  intros (k & e & d1 & d2 & Hd & _ & ->)%evict_one_nonempty. simpl.
  rewrite Hd, !length_app. simpl. lia.
Qed.

(** [_evict_expired] and the two loops only drop entries *)
Lemma fold_remove_evicted (ks : list K) c :
  evicted_from c (fold_left (fun c k => (Cache.remove c k).2) ks c).
Proof.
  revert c. induction ks as [|k ks IH]; intros c; simpl.
  - apply evicted_refl.
  - eapply evicted_trans; [apply remove_evicted | apply IH].
Qed.

Lemma evict_expired_evicted c now :
  evicted_from c (Cache._evict_expired clock c now).1.
Proof.
  unfold Cache._evict_expired.
  destruct (Cache.expired_keys clock (Cache._entries c) now) as [ks now1].
  apply fold_remove_evicted.
Qed.

Lemma evict_by_size_spec fuel c c' :
  Cache.evict_by_size fuel c = Some c' ->
  evicted_from c c' /\ entry_count c' < Cache.max_size c'.
Proof.
  revert c. induction fuel as [|fuel IH]; intros c; simpl; [done|].
  case_bool_decide as Hfull.
  - intros [Hev Hlt]%IH. split; [|done].
    eapply evicted_trans; [apply evict_one_evicted | done].
  - intros [= <-]. split; [apply evicted_refl|].
    unfold entry_count. lia.
Qed.

Lemma evict_by_size_fuel fuel c :
  1 <= Cache.max_size c ->
  (length (Cache._entries c) < fuel)%nat ->
  is_Some (Cache.evict_by_size fuel c).
Proof.
  revert c. induction fuel as [|fuel IH]; intros c Hmax Hlen; [lia|].
  simpl. case_bool_decide as Hfull; [|done].
  assert (Cache._entries c <> []) as Hne.
  { intros Hd. rewrite Hd in Hfull. simpl in Hfull. lia. }
  apply IH.
  - by rewrite (ev_max_size _ _ (evict_one_evicted c)).
  - pose proof (evict_one_length c Hne). lia.
Qed.

Lemma evict_by_memory_spec fuel c new_size c' :
  Cache.evict_by_memory fuel c new_size = Some c' ->
  evicted_from c c' /\
  (Cache._total_memory c' + new_size <= Cache.max_memory c'
   \/ Cache._entries c' = []).
Proof.
  revert c. induction fuel as [|fuel IH]; intros c; simpl; [done|].
  case_bool_decide as Hover.
  - destruct (Cache._evict_one c) as [evicted c1] eqn:Hone.
    pose proof (evict_one_evicted c) as Hev. rewrite Hone in Hev.
    destruct evicted.
    + intros [Hev' Hpost]%IH. split; [|done]. by eapply evicted_trans.
    + intros [= <-]. split; [done|]. right.
      pose proof (evict_one_false c) as Hfalse. rewrite Hone in Hfalse.
      destruct Hfalse as [Hd Hc]; [done|]. simpl in Hc. by subst c1.
  - intros [= <-]. split; [apply evicted_refl|]. left. lia.
Qed.

Lemma evict_by_memory_fuel fuel c new_size :
  (length (Cache._entries c) < fuel)%nat ->
  is_Some (Cache.evict_by_memory fuel c new_size).
Proof.
  revert c. induction fuel as [|fuel IH]; intros c Hlen; [lia|].
  simpl. case_bool_decide as Hover; [|done].
  destruct (Cache._evict_one c) as [evicted c1] eqn:Hone.
  destruct evicted; [|done].
  apply IH.
  destruct (Cache._entries c) as [|x d] eqn:Hd.
  { rewrite evict_one_empty in Hone by done. done. }
  pose proof (evict_one_length c) as Hl. rewrite Hone, Hd in Hl.
  simpl in *. specialize (Hl ltac:(done)). lia.
Qed.

Lemma evict_if_needed_spec fuel c new_size now c' now' :
  Cache._evict_if_needed clock fuel c new_size now = Some (c', now') ->
  evicted_from c c' /\
  entry_count c' < Cache.max_size c' /\
  (Cache._total_memory c' + new_size <= Cache.max_memory c'
   \/ Cache._entries c' = []).
Proof.
  unfold Cache._evict_if_needed.
  pose proof (evict_expired_evicted c now) as H0.
  destruct (Cache._evict_expired clock c now) as [c0 now0].
  destruct (Cache.evict_by_size fuel c0) as [c1|] eqn:H1; [|done].
  destruct (Cache.evict_by_memory fuel c1 new_size) as [c2|] eqn:H2; [|done].
  intros [= <- <-].
  apply evict_by_size_spec in H1 as [Hev1 Hlt].
  apply evict_by_memory_spec in H2 as [Hev2 Hpost].
  split_and!; [|
    |done].
  - eapply evicted_trans; [exact H0|]. by eapply evicted_trans.
  - pose proof (evicted_length _ _ Hev2).
    rewrite (ev_max_size _ _ Hev2). unfold entry_count in *. lia.
Qed.

Lemma evict_if_needed_fuel fuel c new_size now :
  1 <= Cache.max_size c ->
  (length (Cache._entries c) < fuel)%nat ->
  is_Some (Cache._evict_if_needed clock fuel c new_size now).
Proof.
  intros Hmax Hlen. unfold Cache._evict_if_needed.
  pose proof (evict_expired_evicted c now) as H0.
  destruct (Cache._evict_expired clock c now) as [c0 now0]. simpl in H0.
  pose proof (evicted_length _ _ H0) as Hl0.
  destruct (evict_by_size_fuel fuel c0) as [c1 H1].
  { by rewrite (ev_max_size _ _ H0). }
  { lia. }
  rewrite H1.
  pose proof (evicted_length _ _ (proj1 (evict_by_size_spec _ _ _ H1))).
  destruct (evict_by_memory_fuel fuel c1 new_size) as [c2 H2]; [lia|].
  by rewrite H2.
Qed.

(** What [put] does: it drops entries, then appends the new entry *)
Lemma put_spec fuel c k v ttl now c' now' :
  NoDup (OrderedDict.keys (Cache._entries c)) ->
  Cache.put clock fuel c k v ttl now = Some (c', now') ->
  exists c2,
    evicted_from c c2 /\
    (k ∉ OrderedDict.keys (Cache._entries c2)) /\
    entry_count c2 < Cache.max_size c /\
    (Cache._total_memory c2 + CacheEntry._estimate_size v
       <= Cache.max_memory c
     \/ Cache._entries c2 = []) /\
    c' = Cache.set_total_memory
           (Cache.set_entries c2
              (Cache._entries c2 ++
               [(k, CacheEntry.mk k v (clock now) (clock (S now)) 0
                      (Cache.ttl_or ttl (Cache.default_ttl c))
                      (CacheEntry._estimate_size v))]))
           (Cache._total_memory c2 + CacheEntry._estimate_size v).
Proof.
  intros Hnd. unfold Cache.put.
  set (c1 := if OrderedDict.contains (Cache._entries c) k
             then (Cache.remove c k).2 else c).
  assert (evicted_from c c1) as Hev1.
  { subst c1. case_match; [apply remove_evicted | apply evicted_refl]. }
  assert (k ∉ OrderedDict.keys (Cache._entries c1)) as Hk1.
  { subst c1. unfold OrderedDict.contains.
    destruct (OrderedDict.get (Cache._entries c) k) eqn:Hg.
    - by apply remove_gone.
    - by apply od_get_None. }
  clearbody c1. unfold CacheEntry.init. simpl.
  destruct (Cache._evict_if_needed clock fuel c1 _ _) as [[c2 now2]|] eqn:Hev;
    [|done].
  intros [= <- <-].
  apply evict_if_needed_spec in Hev as (Hev2 & Hlt & Hpost).
  pose proof (evicted_trans _ _ _ Hev1 Hev2) as Hev.
  pose proof (evicted_keys _ _ k Hev2 Hk1) as Hk2.
  exists c2. split_and!; try done.
  - by rewrite <- (ev_max_size _ _ Hev).
  - by rewrite <- (ev_max_memory _ _ Hev).
  - rewrite od_set_absent by (by apply od_get_None).
    by rewrite (ev_default_ttl _ _ Hev1).
Qed.

Lemma put_returns_fuel fuel c k v ttl now :
  1 <= Cache.max_size c ->
  (length (Cache._entries c) < fuel)%nat ->
  is_Some (Cache.put clock fuel c k v ttl now).
Proof.
  intros Hmax Hfuel. unfold Cache.put.
  set (c1 := if OrderedDict.contains (Cache._entries c) k
             then (Cache.remove c k).2 else c).
  assert (evicted_from c c1) as Hev1.
  { subst c1. case_match; [apply remove_evicted | apply evicted_refl]. }
  clearbody c1. unfold CacheEntry.init. simpl.
  pose proof (evicted_length _ _ Hev1).
  edestruct (evict_if_needed_fuel fuel c1) as [[c2 now2] ->]; [|
    |done].
  - by rewrite (ev_max_size _ _ Hev1).
  - lia.
Qed.

Lemma put_returns c k v ttl now :
  1 <= Cache.max_size c ->
  is_Some (Cache.put clock (S (length (Cache._entries c))) c k v ttl now).
Proof. intros Hmax. apply put_returns_fuel; [done | lia]. Qed.

(** What [get] does, by cases *)
Lemma get_miss c k default now :
  OrderedDict.get (Cache._entries c) k = None ->
  Cache.get clock c k default now
  = (default, Cache.set_misses c (Cache._misses c + 1), now).
Proof. intros Hg. unfold Cache.get. by rewrite Hg. Qed.

Lemma get_expired c k e default now :
  OrderedDict.get (Cache._entries c) k = Some e ->
  (CacheEntry.is_expired clock e now).1 = true ->
  Cache.get clock c k default now
  = (default,
     Cache.set_misses (Cache.remove c k).2 (Cache._misses c + 1),
     (CacheEntry.is_expired clock e now).2).
Proof.
  intros Hg Hx. unfold Cache.get. rewrite Hg.
  destruct (CacheEntry.is_expired clock e now) as [b now1].
  simpl in Hx. subst b. simpl.
  by rewrite (ev_misses _ _ (remove_evicted c k)).
Qed.

Lemma get_hit c k e default now :
  OrderedDict.get (Cache._entries c) k = Some e ->
  (CacheEntry.is_expired clock e now).1 = false ->
  exists d1 d2 e',
    Cache._entries c = d1 ++ (k, e) :: d2 /\
    (k ∉ OrderedDict.keys d1) /\
    e' = (CacheEntry.access clock e (CacheEntry.is_expired clock e now).2).1.2 /\
    Cache.get clock c k default now
    = (CacheEntry.value e,
       Cache.set_entries (Cache.set_hits c (Cache._hits c + 1))
         (if String.eqb (Cache.policy c) CachePolicy.LRU
          then d1 ++ d2 ++ [(k, e')]
          else d1 ++ (k, e') :: d2),
       S (CacheEntry.is_expired clock e now).2).
Proof.
  intros Hg Hx. unfold Cache.get. rewrite Hg.
  destruct (od_get_split _ _ _ Hg) as (d1 & d2 & Hd & Hk).
  eexists d1, d2, _. split_and!; [done..|].
  destruct (CacheEntry.is_expired clock e now) as [b now1].
  simpl in Hx. subst b. simpl.
  rewrite Hd, od_set_app by done.
  destruct (String.eqb (Cache.policy c) CachePolicy.LRU); simpl; [|done].
  unfold OrderedDict.move_to_end. rewrite od_pop_app by done.
  by rewrite <- app_assoc.
Qed.

(** The operations keep the representation invariant *)
Lemma init_inv name max_size max_memory policy ttl :
  cache_inv (Cache.init (K:=K) name max_size max_memory policy ttl).
Proof. split; simpl; [apply NoDup_nil_2 | done | done]. Qed.

Lemma put_inv fuel c k v ttl now c' now' :
  cache_inv c ->
  Cache.put clock fuel c k v ttl now = Some (c', now') ->
  cache_inv c'.
Proof.
  intros Hinv Hput.
  destruct (put_spec _ _ _ _ _ _ _ _ (inv_keys _ Hinv) Hput)
    as (c2 & Hev & Hk & _ & _ & ->).
  destruct (evicted_inv _ _ Hev Hinv) as [Hnd Hmem Hsz].
  split; simpl.
  - rewrite od_keys_app. simpl. apply NoDup_app. split_and!; [done| |].
    + intros x Hx [->|[]%elem_of_nil]%elem_of_cons. done.
    + apply NoDup_singleton.
  - rewrite total_size_app, total_size_cons. simpl.
    change (total_size []) with 0. lia.
  - apply Forall_app. split; [done|]. apply Forall_singleton. simpl.
    apply estimate_size_nonneg.
Qed.

Lemma cache_inv_ext c c' :
  Cache._entries c' = Cache._entries c ->
  Cache._total_memory c' = Cache._total_memory c ->
  cache_inv c -> cache_inv c'.
Proof. intros Hd Hm [? ? ?]. split; rewrite ?Hd, ?Hm; done. Qed.

Lemma get_inv c k default now :
  cache_inv c -> cache_inv (Cache.get clock c k default now).1.2.
Proof.
  intros Hinv.
  destruct (OrderedDict.get (Cache._entries c) k) as [e|] eqn:Hg.
  2: { rewrite get_miss by done. by apply (cache_inv_ext c). }
  destruct (CacheEntry.is_expired clock e now).1 eqn:Hx.
  { rewrite (get_expired _ _ _ _ _ Hg Hx). simpl.
    apply (cache_inv_ext (Cache.remove c k).2); [done..|].
    eapply evicted_inv; [apply remove_evicted | done]. }
  destruct (get_hit _ _ _ default _ Hg Hx) as (d1 & d2 & e' & Hd & Hk & -> & ->).
  destruct Hinv as [Hnd Hmem Hsz]. rewrite Hd in Hnd, Hmem, Hsz.
  rewrite od_keys_app in Hnd. simpl in Hnd.
  rewrite total_size_app, total_size_cons in Hmem. simpl in Hmem.
  apply Forall_app in Hsz as [Hsz1 [Hsze Hsz2]%Forall_cons].
  split; simpl; destruct (String.eqb (Cache.policy c) CachePolicy.LRU).
  - rewrite !od_keys_app. simpl.
    eapply (NoDup_Permutation_proper); [|exact Hnd].
    apply Permutation_app_head. symmetry. apply Permutation_cons_append.
  - by rewrite od_keys_app.
  - rewrite !total_size_app, total_size_cons. simpl.
    change (total_size []) with 0. lia.
  - rewrite total_size_app, total_size_cons. simpl. lia.
  - rewrite !Forall_app, Forall_singleton. done.
  - rewrite Forall_app, Forall_cons. done.
Qed.

Lemma clear_inv c : cache_inv (Cache.clear c).
Proof. split; simpl; [apply NoDup_nil_2 | done | done]. Qed.

(** Every reachable cache satisfies the representation invariant *)
Lemma reachable_inv c : reachable clock c -> cache_inv c.
Proof.
  induction 1 as [ | c k default now _ IH | fuel c k v ttl now c' now' _ IH Hput
                 | c k _ IH | c _ IH | c now _ IH ].
  - apply init_inv.
  - by apply get_inv.
  - by eapply put_inv.
  - eapply evicted_inv; [apply remove_evicted | done].
  - apply clear_inv.
  - eapply evicted_inv; [apply evict_expired_evicted | done].
Qed.
End CacheFacts.

(** * Facts used to run the access sequences *)

Section SequenceFacts.
Context {K : Type} `{EqDecision K}.
Variable clock : nat -> Z.
Implicit Types (c : Cache.t K) (k a : K) (e ea : CacheEntry.t K).

Lemma sublist_same_length {A : Type} (l1 l2 : list A) :
  sublist l1 l2 -> length l1 = length l2 -> l1 = l2.
Proof.
  induction 1 as [|x l1 l2 _ IH|x l1 l2 Hsub _]; simpl; intros Hlen.
  - done.
  - f_equal. apply IH. lia.
  - apply sublist_length in Hsub. lia.
Qed.

Lemma evicted_same_length c c' :
  evicted_from c c' ->
  length (Cache._entries c') = length (Cache._entries c) ->
  c' = c.
Proof.
  intros Hev Hlen.
  pose proof (sublist_same_length _ _ (ev_entries _ _ Hev) Hlen) as Hd.
  destruct Hev as [? ? ? ? ? ? ? _ Hmem]. rewrite Hd in Hmem.
  destruct c, c'; simpl in *. subst. f_equal. lia.
Qed.

Lemma never_expires_access e now :
  never_expires clock e ->
  never_expires clock (CacheEntry.access clock e now).1.2.
Proof. intros He s. exact (He s). Qed.

Lemma remove_keeps c k a ea :
  (a, ea) ∈ Cache._entries c -> k <> a ->
  (a, ea) ∈ Cache._entries (Cache.remove c k).2.
Proof.
  intros Hin Hka.
  destruct (OrderedDict.get (Cache._entries c) k) as [e|] eqn:Hg.
  - destruct (remove_present c k e Hg) as (d1 & d2 & Hd & _ & ->). simpl.
    rewrite Hd in Hin. rewrite elem_of_app, elem_of_cons in Hin.
    rewrite elem_of_app. destruct Hin as [?|[[= ? ?]|?]]; auto. congruence.
  - by rewrite remove_absent.
Qed.

Lemma expired_keys_expired (items : list (K * CacheEntry.t K)) now k :
  k ∈ (Cache.expired_keys clock items now).1 ->
  exists e s, (k, e) ∈ items /\ (CacheEntry.is_expired clock e s).1 = true.
Proof.
  revert now. induction items as [|[k' e'] items IH]; intros now; simpl.
  - intros []%elem_of_nil.
  - destruct (CacheEntry.is_expired clock e' now) as [b now1] eqn:Hx.
    specialize (IH now1).
    destruct (Cache.expired_keys clock items now1) as [ks now2].
    simpl in *. intros Hin.
    assert (k = k' /\ b = true \/ k ∈ ks) as [[-> ->]|Hks].
    { destruct b; [|by right].
      apply elem_of_cons in Hin as [->|?]; [by left | by right]. }
    + exists e', now. rewrite Hx. split; [apply elem_of_cons; by left | done].
    + destruct (IH Hks) as (e & s & He & Hs).
      exists e, s. split; [apply elem_of_cons; by right | done].
Qed.

Lemma fold_remove_keeps (ks : list K) c a ea :
  (a, ea) ∈ Cache._entries c -> a ∉ ks ->
  (a, ea) ∈ Cache._entries (fold_left (fun c k => (Cache.remove c k).2) ks c).
Proof.
  revert c. induction ks as [|k ks IH]; intros c Hin Hks; simpl; [done|].
  apply not_elem_of_cons in Hks as [Hak Hks].
  apply IH; [|done]. apply remove_keeps; [done | congruence].
Qed.

Lemma evict_expired_keeps c now a ea :
  NoDup (OrderedDict.keys (Cache._entries c)) ->
  (a, ea) ∈ Cache._entries c ->
  never_expires clock ea ->
  (a, ea) ∈ Cache._entries (Cache._evict_expired clock c now).1.
Proof.
  intros Hnd Hin Hnever. unfold Cache._evict_expired.
  pose proof (expired_keys_expired (Cache._entries c) now a) as Hexp.
  destruct (Cache.expired_keys clock (Cache._entries c) now) as [ks now1].
  simpl in *. apply fold_remove_keeps; [done|].
  intros (e & s & He & Hs)%Hexp.
  assert (e = ea) as ->.
  { pose proof (od_get_NoDup _ _ _ Hnd Hin).
    pose proof (od_get_NoDup _ _ _ Hnd He). congruence. }
  by rewrite Hnever in Hs.
Qed.

Lemma put_config fuel c k v ttl now c' now' :
  NoDup (OrderedDict.keys (Cache._entries c)) ->
  Cache.put clock fuel c k v ttl now = Some (c', now') ->
  Cache.max_size c' = Cache.max_size c /\
  Cache.max_memory c' = Cache.max_memory c /\
  Cache.policy c' = Cache.policy c /\
  Cache.default_ttl c' = Cache.default_ttl c.
Proof.
  intros Hnd Hput.
  destruct (put_spec clock _ _ _ _ _ _ _ _ Hnd Hput)
    as (c2 & Hev & _ & _ & _ & ->).
  simpl. split_and!; apply Hev.
Qed.

(** A [put] into a cache of two slots that holds the entry of [a], which
    never expires and fits in memory with the new value, and perhaps one
    more entry, which is then the victim of [_evict_one]: the cache ends
    with the entry of [a] and the new entry. *)
Lemma put_second_slot fuel c a ea k v ttl now c' now' :
  cache_inv c ->
  Cache.max_size c = 2 ->
  k <> a ->
  never_expires clock ea ->
  (a, ea) ∈ Cache._entries c ->
  (length (Cache._entries c) <= 2)%nat ->
  (length (Cache._entries c) = 2%nat ->
   Cache._entries (Cache._evict_one c).2 = [(a, ea)]) ->
  CacheEntry.size ea + CacheEntry._estimate_size v <= Cache.max_memory c ->
  Cache.put clock fuel c k v ttl now = Some (c', now') ->
  Cache._entries c' =
    [(a, ea);
     (k, CacheEntry.mk k v (clock now) (clock (S now)) 0
           (Cache.ttl_or ttl (Cache.default_ttl c))
           (CacheEntry._estimate_size v))].
Proof.
  intros Hinv Hmax Hka Hnever Hin Hlen Hvictim Hfits. unfold Cache.put.
  set (c1 := if OrderedDict.contains (Cache._entries c) k
             then (Cache.remove c k).2 else c).
  assert (evicted_from c c1) as Hev1.
  { subst c1. case_match; [apply remove_evicted | apply evicted_refl]. }
  assert ((a, ea) ∈ Cache._entries c1) as Hin1.
  { subst c1. case_match; [by apply remove_keeps | done]. }
  clearbody c1. unfold CacheEntry.init, Cache._evict_if_needed. simpl.
  pose proof (evict_expired_evicted clock c1 (S (S now))) as Hev0.
  pose proof (evict_expired_keeps c1 (S (S now)) a ea
                (inv_keys _ (evicted_inv _ _ Hev1 Hinv)) Hin1 Hnever) as Hin0.
  destruct (Cache._evict_expired clock c1 (S (S now))) as [c0 now0].
  simpl in Hev0, Hin0.
  pose proof (evicted_trans _ _ _ Hev1 Hev0) as Hev.
  pose proof (evicted_length _ _ Hev) as Hlen0.
  (* the loop on the number of entries leaves the entry of [a] alone *)
  destruct (Cache.evict_by_size fuel c0) as [c2|] eqn:Hsize; [|done].
  assert (evicted_from c c2 /\ Cache._entries c2 = [(a, ea)]) as [Hev2 Hd2].
  { destruct fuel as [|fuel]; [done|]. simpl in Hsize.
    rewrite (ev_max_size _ _ Hev), Hmax in Hsize.
    case_bool_decide as Hfull.
    - assert (length (Cache._entries c0) = length (Cache._entries c)) as Hsame
        by lia.
      pose proof (evicted_same_length _ _ Hev Hsame) as ->.
      specialize (Hvictim ltac:(lia)).
      pose proof (evict_one_evicted c) as Hone.
      destruct fuel as [|fuel]; [done|]. simpl in Hsize.
      rewrite Hvictim, (ev_max_size _ _ Hone), Hmax in Hsize. simpl in Hsize.
      injection Hsize as <-. done.
    - injection Hsize as <-. split; [done|].
      destruct (Cache._entries c0) as [|x [|y d]]; simpl in *.
      + by apply elem_of_nil in Hin0.
      + apply elem_of_cons in Hin0 as [->|[]%elem_of_nil]. done.
      + lia. }
  (* the loop on memory does not run *)
  pose proof (evicted_inv _ _ Hev2 Hinv) as [_ Hmem2 _].
  rewrite Hd2, total_size_cons in Hmem2. change (total_size []) with 0 in Hmem2.
  simpl in Hmem2.
  destruct fuel as [|fuel]; [done|]. simpl.
  rewrite (ev_max_memory _ _ Hev2).
  rewrite bool_decide_eq_false_2 by lia.
  intros [= <- <-]. simpl. rewrite Hd2. simpl.
  rewrite decide_False by done.
  by rewrite (ev_default_ttl _ _ Hev1).
Qed.

(** A [get] of the first key of the dictionary, whose entry never expires *)
Lemma get_hit_first c a ea d default now :
  Cache._entries c = (a, ea) :: d ->
  never_expires clock ea ->
  exists now',
    Cache.get clock c a default now =
      (CacheEntry.value ea,
       Cache.set_entries (Cache.set_hits c (Cache._hits c + 1))
         (if String.eqb (Cache.policy c) CachePolicy.LRU
          then d ++ [(a, (CacheEntry.access clock ea now').1.2)]
          else (a, (CacheEntry.access clock ea now').1.2) :: d),
       S now').
Proof.
  intros Hd Hnever. exists (CacheEntry.is_expired clock ea now).2.
  unfold Cache.get. rewrite Hd, od_get_here.
  specialize (Hnever now).
  destruct (CacheEntry.is_expired clock ea now) as [b now1].
  simpl in Hnever. subst b. simpl. rewrite Hd. simpl.
  rewrite decide_True by done.
  destruct (String.eqb (Cache.policy c) CachePolicy.LRU); simpl; [|done].
  unfold OrderedDict.move_to_end. simpl. by rewrite decide_True.
Qed.

(** Under LRU the victim of a cache of two entries is the first *)
Lemma lru_victim_of_two c x ex a ea :
  Cache.policy c = CachePolicy.LRU ->
  Cache._entries c = [(x, ex); (a, ea)] ->
  Cache._entries (Cache._evict_one c).2 = [(a, ea)].
Proof.
  intros Hpol Hd. unfold Cache._evict_one, Cache.remove.
  rewrite Hd, Hpol. simpl. by rewrite decide_True.
Qed.

(** Under LFU the victim of a cache of two entries is the second when its
    count is the smaller *)
Lemma lfu_victim_of_two c a ea x ex :
  Cache.policy c = CachePolicy.LFU ->
  Cache._entries c = [(a, ea); (x, ex)] ->
  x <> a ->
  CacheEntry.access_count ex < CacheEntry.access_count ea ->
  Cache._entries (Cache._evict_one c).2 = [(a, ea)].
Proof.
  intros Hpol Hd Hxa Hlt. unfold Cache._evict_one, Cache.remove.
  rewrite Hd, Hpol. simpl. unfold Cache.access_count_of. simpl.
  rewrite !(decide_True (P := a = a)) by done.
  rewrite !(decide_False (P := x = a)) by done.
  rewrite !(decide_True (P := x = x)) by done.
  destruct (Z.ltb_spec (CacheEntry.access_count ex) (CacheEntry.access_count ea));
    [|lia].
  simpl. rewrite !(decide_False (P := x = a)) by done.
  by rewrite !(decide_True (P := x = x)).
Qed.

(** A hit on the first key under LFU: the entry stays where it is and its
    count grows by one *)
Lemma lfu_get_first c a ea d default now :
  cache_inv c ->
  Cache.policy c = CachePolicy.LFU ->
  Cache._entries c = (a, ea) :: d ->
  never_expires clock ea ->
  exists c' ea' now',
    Cache.get clock c a default now = (CacheEntry.value ea, c', now') /\
    cache_inv c' /\
    Cache.policy c' = CachePolicy.LFU /\
    Cache.max_size c' = Cache.max_size c /\
    Cache.max_memory c' = Cache.max_memory c /\
    Cache._entries c' = (a, ea') :: d /\
    never_expires clock ea' /\
    CacheEntry.size ea' = CacheEntry.size ea /\
    CacheEntry.access_count ea' = CacheEntry.access_count ea + 1.
Proof.
  intros Hinv Hpol Hd Hnever.
  destruct (get_hit_first c a ea d default now Hd Hnever) as [n Hget].
  pose proof (get_inv clock c a default now Hinv) as Hinv'.
  rewrite Hget in Hinv' |- *. cbn [fst snd] in Hinv'.
  rewrite Hpol in Hinv' |- *.
  change (CachePolicy.LFU =? CachePolicy.LRU)%string with false in *.
  cbv beta iota in Hinv' |- *.
  eexists _, _, _. split; [reflexivity|].
  split_and!; first [done | by apply never_expires_access].
Qed.
End SequenceFacts.

(** * Facts about the sweep of expired entries *)

Section SweepFacts.
Context {K : Type} `{EqDecision K}.
Variable clock : nat -> Z.
Implicit Types (c : Cache.t K) (k : K) (e : CacheEntry.t K).





Lemma fold_remove_gone (ks : list K) c k :
  NoDup (OrderedDict.keys (Cache._entries c)) ->
  k ∈ ks ->
  k ∉ OrderedDict.keys
        (Cache._entries (fold_left (fun c k => (Cache.remove c k).2) ks c)).
Proof.
  revert c. induction ks as [|k0 ks IH]; intros c Hnd; simpl.
  - intros []%elem_of_nil.
  - assert (NoDup (OrderedDict.keys (Cache._entries (Cache.remove c k0).2)))
      as Hnd'.
    { eapply sublist_NoDup; [exact Hnd|]. apply sublist_map, remove_evicted. }
    intros [->|Hin]%elem_of_cons; [|by apply IH].
    eapply evicted_keys; [apply fold_remove_evicted|]. by apply remove_gone.
Qed.


(** The loop on the number of entries never ends when [max_size] is not
    positive *)
Lemma evict_by_size_diverges fuel c :
  Cache.max_size c <= 0 -> Cache.evict_by_size fuel c = None.
Proof.
  revert c. induction fuel as [|fuel IH]; intros c Hmax; simpl; [done|].
  rewrite bool_decide_eq_true_2 by lia.
  apply IH. by rewrite (ev_max_size _ _ (evict_one_evicted c)).
Qed.

Lemma put_diverges fuel c k v ttl now :
  Cache.max_size c <= 0 -> Cache.put clock fuel c k v ttl now = None.
Proof.
  intros Hmax. unfold Cache.put.
  set (c1 := if OrderedDict.contains (Cache._entries c) k
             then (Cache.remove c k).2 else c).
  assert (evicted_from c c1) as Hev1.
  { subst c1. case_match; [apply remove_evicted | apply evicted_refl]. }
  clearbody c1. unfold CacheEntry.init, Cache._evict_if_needed. simpl.
  pose proof (evict_expired_evicted clock c1 (S (S now))) as Hev0.
  destruct (Cache._evict_expired clock c1 (S (S now))) as [c0 now0].
  simpl in Hev0.
  rewrite evict_by_size_diverges; [done|].
  rewrite (ev_max_size _ _ Hev0), (ev_max_size _ _ Hev1). done.
Qed.

End SweepFacts.

(** * The properties *)

Section Claims.
Context {K : Type} `{EqDecision K}.
Variable clock : nat -> Z.
Implicit Types (c : Cache.t K) (k : K) (e : CacheEntry.t K).

(** C1.  In every cache a program can hold (a fresh cache, or the result of
    any sequence of [get], [put], [remove], [clear] and sweeps), the memory
    counter equals the sum of the sizes of the stored entries; in particular
    it does so right after each of [put], [remove], [clear] and [get]
    (whether or not the [get] dropped an expired entry) returns. *)
Theorem total_memory_is_sum_of_sizes c :
  reachable clock c ->
  Cache._total_memory c = total_size (Cache._entries c) /\
  (forall fuel k v ttl now c' now',
      Cache.put clock fuel c k v ttl now = Some (c', now') ->
      Cache._total_memory c' = total_size (Cache._entries c')) /\
  (forall k,
      Cache._total_memory (Cache.remove c k).2
      = total_size (Cache._entries (Cache.remove c k).2)) /\
  Cache._total_memory (Cache.clear c) = total_size (Cache._entries (Cache.clear c)) /\
  (forall k default now,
      Cache._total_memory (Cache.get clock c k default now).1.2
      = total_size (Cache._entries (Cache.get clock c k default now).1.2)).
Proof.
  intros Hc. split_and!.
  - apply inv_memory. by apply (reachable_inv clock).
  - intros fuel k v ttl now c' now' Hput.
    apply inv_memory, (reachable_inv clock). by eapply reach_put.
  - intros k. apply inv_memory, (reachable_inv clock). by apply reach_remove.
  - apply inv_memory, (reachable_inv clock). by apply reach_clear.
  - intros k default now.
    apply inv_memory, (reachable_inv clock). by apply reach_get.
Qed.

(** C2.  Whenever [put] returns, the cache holds at most [max_size] entries
    (and [put] leaves [max_size] as it was); and [put] does return when
    [max_size] is at least one. *)
Theorem put_respects_max_entries c k v ttl now :
  (forall fuel c' now',
      Cache.put clock fuel c k v ttl now = Some (c', now') ->
      entry_count c' <= Cache.max_size c' /\
      Cache.max_size c' = Cache.max_size c) /\
  (1 <= Cache.max_size c ->
   exists fuel c' now', Cache.put clock fuel c k v ttl now = Some (c', now')).
Proof.
  split.
  - intros fuel c' now'. unfold Cache.put.
    set (c1 := if OrderedDict.contains (Cache._entries c) k
               then (Cache.remove c k).2 else c).
    assert (evicted_from c c1) as Hev1.
    { subst c1. case_match; [apply remove_evicted | apply evicted_refl]. }
    clearbody c1. unfold CacheEntry.init. simpl.
    destruct (Cache._evict_if_needed clock fuel c1 _ _) as [[c2 now2]|] eqn:Hev;
      [|done].
    intros [= <- <-]. simpl.
    apply evict_if_needed_spec in Hev as (Hev2 & Hlt & _).
    split.
    + pose proof (od_length_set (Cache._entries c2) k
        (CacheEntry.mk k v (clock now) (clock (S now)) 0
           (Cache.ttl_or ttl (Cache.default_ttl c1))
           (CacheEntry._estimate_size v))).
      unfold entry_count in *. simpl. lia.
    + rewrite (ev_max_size _ _ Hev2). apply Hev1.
  - intros Hmax.
    destruct (put_returns clock c k v ttl now Hmax) as [[c' now'] Hput].
    eauto.
Qed.


(** C10.  For a reachable cache with [max_size >= 1]: a [put] of a value
    whose estimated size exceeds [max_memory] returns, and when it returns
    the new entry is the only entry of the cache, whatever the cache held
    before; the memory loop stops only on an empty cache. *)
Theorem oversized_put_leaves_single_entry c k v ttl now :
  reachable clock c ->
  1 <= Cache.max_size c ->
  CacheEntry._estimate_size v > Cache.max_memory c ->
  (exists fuel c' now', Cache.put clock fuel c k v ttl now = Some (c', now')) /\
  (forall fuel c' now',
      Cache.put clock fuel c k v ttl now = Some (c', now') ->
      exists e,
        Cache._entries c' = [(k, e)] /\
        CacheEntry.value e = v /\
        CacheEntry.size e = CacheEntry._estimate_size v).
Proof.
  intros Hc Hmax Hbig. pose proof (reachable_inv clock c Hc) as Hinv. split.
  - destruct (put_returns clock c k v ttl now Hmax) as [[c' now'] Hput].
    eauto.
  - intros fuel c' now' Hput.
    destruct (put_spec clock _ _ _ _ _ _ _ _ (inv_keys _ Hinv) Hput)
      as (c2 & Hev & Hk & _ & Hpost & ->).
    destruct (evicted_inv _ _ Hev Hinv) as [_ Hmem Hsz].
    pose proof (total_size_nonneg _ Hsz) as Hpos.
    destruct Hpost as [Hle|Hempty]; [lia|].
    simpl. rewrite Hempty. simpl. eauto.
Qed.

(** C5.  [get] on a key whose entry has a TTL that has elapsed since the
    entry was created returns the caller's default (never the stored
    value), removes the entry, adds one to the miss counter and leaves the
    hit counter alone; the key is absent afterwards. *)
Theorem get_expired_entry c k e d default now :
  reachable clock c ->
  OrderedDict.get (Cache._entries c) k = Some e ->
  CacheEntry.ttl e = Some d ->
  clock now - CacheEntry.created_at e > d ->
  exists c',
    Cache.get clock c k default now = (default, c', S now) /\
    OrderedDict.get (Cache._entries c') k = None /\
    (exists d1 d2,
        Cache._entries c = d1 ++ (k, e) :: d2 /\
        Cache._entries c' = d1 ++ d2) /\
    Cache._total_memory c' = Cache._total_memory c - CacheEntry.size e /\
    Cache._misses c' = Cache._misses c + 1 /\
    Cache._hits c' = Cache._hits c.
Proof.
  intros Hc Hg Httl Hgt. pose proof (reachable_inv clock c Hc) as Hinv.
  assert (CacheEntry.is_expired clock e now = (true, S now)) as Hx.
  { unfold CacheEntry.is_expired. rewrite Httl.
    by rewrite bool_decide_eq_true_2. }
  eexists. split.
  { rewrite (get_expired clock c k e default now Hg); [|by rewrite Hx].
    by rewrite Hx. }
  pose proof (remove_gone c k (inv_keys _ Hinv)) as Hgone.
  destruct (remove_present c k e Hg) as (d1 & d2 & Hd & Hk & Hrm).
  rewrite Hrm in Hgone |- *. simpl in *.
  split_and!; [by apply od_get_None | by exists d1, d2 | done..].
Qed.

(** C9.  Under the LFU policy, [_evict_one] removes the first entry, in the
    order of the dictionary, among those of least [access_count]: every
    entry before the victim has a strictly larger count, every entry after
    it a count at least as large.  The order of the dictionary is the order
    of insertion: [get] never reorders the keys under LFU (it keeps them all,
    or drops an expired one), and [put] appends the new key after the keys
    it keeps. *)
Theorem lfu_evicts_earliest_of_least_count c :
  reachable clock c ->
  Cache.policy c = CachePolicy.LFU ->
  (Cache._entries c <> [] ->
   exists d1 k e d2 c',
     Cache._entries c = d1 ++ (k, e) :: d2 /\
     Cache._evict_one c = (true, c') /\
     Cache._entries c' = d1 ++ d2 /\
     Forall (fun ke => CacheEntry.access_count e < CacheEntry.access_count ke.2) d1 /\
     Forall (fun ke => CacheEntry.access_count e <= CacheEntry.access_count ke.2) d2) /\
  (forall k default now,
      sublist (OrderedDict.keys (Cache._entries (Cache.get clock c k default now).1.2))
              (OrderedDict.keys (Cache._entries c))) /\
  (forall fuel k v ttl now c' now',
      Cache.put clock fuel c k v ttl now = Some (c', now') ->
      exists kept,
        OrderedDict.keys (Cache._entries c') = kept ++ [k] /\
        sublist kept (OrderedDict.keys (Cache._entries c))).
Proof.
  intros Hc Hpol. pose proof (reachable_inv clock c Hc) as Hinv.
  pose proof (inv_keys _ Hinv) as Hnd. split_and!.
  - intros Hne. unfold Cache._evict_one. rewrite Hpol. simpl.
    destruct (OrderedDict.keys (Cache._entries c)) as [|first others] eqn:Hkeys.
    { destruct (Cache._entries c); [done | discriminate]. }
    clear Hnd. pose proof (inv_keys _ Hinv) as Hnd.
    set (f := Cache.access_count_of (Cache._entries c)).
    destruct (min_by_first f first others) as (l1 & l2 & Hsplit & Hl1 & Hl2).
    set (m := min_by f first others) in *.
    assert (m ∈ OrderedDict.keys (Cache._entries c)) as Hin.
    { rewrite Hkeys. apply min_by_elem. }
    destruct (OrderedDict.get (Cache._entries c) m) as [e|] eqn:Hg;
      [|by apply od_get_None in Hg].
    destruct (remove_present c m e Hg) as (d1 & d2 & Hd & Hm1 & ->).
    assert (f m = CacheEntry.access_count e) as Hfm.
    { unfold f, Cache.access_count_of. by rewrite Hg. }
    assert (forall ke, ke ∈ Cache._entries c ->
                       f ke.1 = CacheEntry.access_count ke.2) as Hf.
    { intros [k' e'] Hke. unfold f, Cache.access_count_of.
      by rewrite (od_get_NoDup _ _ _ Hnd Hke). }
    rewrite <- Hkeys in Hsplit. rewrite Hd, od_keys_app in Hsplit.
    simpl in Hsplit.
    assert (m ∉ l1) as Hml1.
    { rewrite Hd, od_keys_app in Hnd. simpl in Hnd. rewrite Hsplit in Hnd.
      apply NoDup_app in Hnd as (_ & Hdisj & _).
      intros Hin1. apply (Hdisj m Hin1). apply elem_of_cons; by left. }
    destruct (not_elem_of_app_cons_inv_l _ _ _ _ _ _ Hml1 Hm1 Hsplit)
      as (Hk1 & _ & Hk2).
    exists d1, m, e, d2. eexists. split_and!; [done..| |].
    + rewrite <- Hk1, Forall_forall in Hl1.
      apply Forall_forall. intros ke Hke.
      specialize (Hl1 ke.1 (list_elem_of_fmap_2 fst _ _ Hke)).
      rewrite Hfm, Hf in Hl1; [done|].
      rewrite Hd. apply elem_of_app; by left.
    + rewrite <- Hk2, Forall_forall in Hl2.
      apply Forall_forall. intros ke Hke.
      specialize (Hl2 ke.1 (list_elem_of_fmap_2 fst _ _ Hke)).
      rewrite Hfm, Hf in Hl2; [done|].
      rewrite Hd. apply elem_of_app; right. apply elem_of_cons; by right.
  - intros k default now.
    destruct (OrderedDict.get (Cache._entries c) k) as [e|] eqn:Hg.
    2: { by rewrite get_miss. }
    destruct (CacheEntry.is_expired clock e now).1 eqn:Hx.
    { rewrite (get_expired clock _ _ _ _ _ Hg Hx). simpl.
      apply sublist_map, (remove_evicted c k). }
    destruct (get_hit clock _ _ _ default _ Hg Hx)
      as (d1 & d2 & e' & Hd & Hk & -> & ->).
    rewrite Hpol, Hd. simpl. by rewrite !od_keys_app.
  - intros fuel k v ttl now c' now' Hput.
    destruct (put_spec clock _ _ _ _ _ _ _ _ Hnd Hput)
      as (c2 & Hev & Hk & _ & _ & ->).
    exists (OrderedDict.keys (Cache._entries c2)). simpl.
    split; [by rewrite od_keys_app|]. apply sublist_map, Hev.
Qed.

(** C6, amended.  In a reachable LRU cache with [max_size = 2], for
    distinct keys [a], [b], [c] such that the entry of [a] does not expire
    and the memory limit is not reached (the estimated size of the value of
    [a] fits in [max_memory] together with that of [b], and together with
    that of [c]), the sequence [put(a); put(b); get(a); put(c)] returns and
    leaves exactly the keys [a] and [c], in this order: the entry of [b] is
    gone. *)
Theorem lru_sequence_keeps_a_and_c (cache : Cache.t K) (a b c : K)
    va vb vc ta tb tc default now :
  reachable clock cache ->
  Cache.policy cache = CachePolicy.LRU ->
  Cache.max_size cache = 2 ->
  a <> b -> a <> c -> b <> c ->
  never_expires clock (new_entry clock cache a va ta now) ->
  CacheEntry._estimate_size va + CacheEntry._estimate_size vb
    <= Cache.max_memory cache ->
  CacheEntry._estimate_size va + CacheEntry._estimate_size vc
    <= Cache.max_memory cache ->
  (exists fuel result,
      put_put_get_put clock fuel cache a b c va vb vc ta tb tc default now
      = Some result) /\
  (forall fuel result,
      put_put_get_put clock fuel cache a b c va vb vc ta tb tc default now
      = Some result ->
      OrderedDict.keys (Cache._entries result) = [a; c]).
Proof.
  intros Hreach Hpol Hmax Hab Hac Hbc Hnever Hfitb Hfitc.
  pose proof (reachable_inv clock cache Hreach) as Hinv.
  assert (forall fuel,
    ((length (Cache._entries cache) < fuel)%nat -> (2 < fuel)%nat ->
     is_Some (put_put_get_put clock fuel cache a b c va vb vc ta tb tc
                default now)) /\
    (forall result,
        put_put_get_put clock fuel cache a b c va vb vc ta tb tc default now
        = Some result ->
        OrderedDict.keys (Cache._entries result) = [a; c])) as Hrun.
  { intros fuel. unfold put_put_get_put.
    (* put(a) *)
    destruct (Cache.put clock fuel cache a va ta now) as [[c1 n1]|] eqn:H1.
    2: { split; [|done]. intros Hf _.
         destruct (put_returns_fuel clock fuel cache a va ta now) as [? Hs];
           [lia | done | congruence]. }
    pose proof (put_inv clock _ _ _ _ _ _ _ _ Hinv H1) as Hinv1.
    destruct (put_config clock _ _ _ _ _ _ _ _ (inv_keys _ Hinv) H1)
      as (Hms1 & Hmm1 & Hpol1 & _).
    destruct (put_spec clock _ _ _ _ _ _ _ _ (inv_keys _ Hinv) H1)
      as (c0 & _ & _ & Hcount0 & _ & Hc1).
    set (ea := new_entry clock cache a va ta now) in *.
    assert (Cache._entries c1 = Cache._entries c0 ++ [(a, ea)]) as Hd1
      by (by rewrite Hc1).
    assert (length (Cache._entries c0) <= 1)%nat as Hlen0
      by (unfold entry_count in Hcount0; lia).
    clear Hc1 Hcount0.
    (* put(b) *)
    destruct (Cache.put clock fuel c1 b vb tb n1) as [[c2 n2]|] eqn:H2.
    2: { split; [|done]. intros _ Hf.
         destruct (put_returns_fuel clock fuel c1 b vb tb n1) as [? Hs];
           [lia | rewrite Hd1, length_app; simpl; lia | congruence]. }
    pose proof (put_inv clock _ _ _ _ _ _ _ _ Hinv1 H2) as Hinv2.
    destruct (put_config clock _ _ _ _ _ _ _ _ (inv_keys _ Hinv1) H2)
      as (Hms2 & Hmm2 & Hpol2 & _).
    assert (Cache._entries c2 = [(a, ea); (b, new_entry clock c1 b vb tb n1)])
      as Hd2.
    { apply (put_second_slot clock fuel c1 a ea b vb tb n1 c2 n2);
        [done | lia | congruence | done | | | | | done].
      - rewrite Hd1. apply elem_of_app; right. apply elem_of_cons; by left.
      - rewrite Hd1, length_app. simpl. lia.
      - intros Hlen2. rewrite Hd1, length_app in Hlen2. simpl in Hlen2.
        destruct (Cache._entries c0) as [|[x ex] [|y d]] eqn:Hd0;
          simpl in *; try lia.
        apply (lru_victim_of_two c1 x ex); [congruence | done].
      - simpl. lia. }
    (* get(a) *)
    destruct (get_hit_first clock c2 a ea _ default n2 Hd2 Hnever)
      as [n3 Hget].
    pose proof (get_inv clock c2 a default n2 Hinv2) as Hinv3.
    rewrite Hget in Hinv3 |- *. cbn [fst snd] in Hinv3.
    rewrite Hpol2, Hpol1, Hpol, String.eqb_refl in Hinv3 |- *.
    cbv beta iota zeta. clear Hget.
    set (eb := new_entry clock c1 b vb tb n1) in *.
    set (ea' := (CacheEntry.access clock ea n3).1.2) in *.
    set (c3 := Cache.set_entries _ _) in *.
    (* put(c) *)
    destruct (Cache.put clock fuel c3 c vc tc (S n3)) as [[c4 n4]|] eqn:H3.
    2: { split; [|done]. intros _ Hf.
         destruct (put_returns_fuel clock fuel c3 c vc tc (S n3)) as [? Hs];
           [simpl; lia | simpl; lia | congruence]. }
    split; [done|]. intros result [= <-].
    rewrite (put_second_slot clock fuel c3 a ea' c vc tc (S n3) c4 n4);
      [done | done | simpl; lia | congruence | | | | | | done].
    - by apply never_expires_access.
    - apply elem_of_cons; right. apply elem_of_cons; by left.
    - simpl. lia.
    - intros _. apply (lru_victim_of_two c3 b eb); [simpl; congruence | done].
    - simpl. lia. }
  split.
  - destruct (proj1 (Hrun (S (S (S (length (Cache._entries cache))))))) as [r Hr];
      [lia | lia |]. eauto.
  - intros fuel result Hr. by apply (Hrun fuel).
Qed.

(** C7, amended.  In a reachable LFU cache with [max_size = 2] that holds
    no entry, for distinct keys [a], [b], [c] such that the entry of [a]
    does not expire and the memory limit is not reached (the estimated size
    of the value of [a] fits in [max_memory] together with that of [b], and
    together with that of [c]), the sequence
    [put(a); put(b); get(a); get(a); get(a); put(c)] returns and leaves
    exactly the keys [a] and [c]: the entry of [b], whose count is the
    least, is gone. *)
Theorem lfu_sequence_keeps_a_and_c (cache : Cache.t K) (a b c : K)
    va vb vc ta tb tc default now :
  reachable clock cache ->
  Cache.policy cache = CachePolicy.LFU ->
  Cache.max_size cache = 2 ->
  Cache._entries cache = [] ->
  a <> b -> a <> c -> b <> c ->
  never_expires clock (new_entry clock cache a va ta now) ->
  CacheEntry._estimate_size va + CacheEntry._estimate_size vb
    <= Cache.max_memory cache ->
  CacheEntry._estimate_size va + CacheEntry._estimate_size vc
    <= Cache.max_memory cache ->
  (exists fuel result,
      put_put_get3_put clock fuel cache a b c va vb vc ta tb tc default now
      = Some result) /\
  (forall fuel result,
      put_put_get3_put clock fuel cache a b c va vb vc ta tb tc default now
      = Some result ->
      OrderedDict.keys (Cache._entries result) = [a; c]).
Proof.
  intros Hreach Hpol Hmax Hempty Hab Hac Hbc Hnever Hfitb Hfitc.
  pose proof (reachable_inv clock cache Hreach) as Hinv.
  assert (forall fuel,
    ((2 < fuel)%nat ->
     is_Some (put_put_get3_put clock fuel cache a b c va vb vc ta tb tc
                default now)) /\
    (forall result,
        put_put_get3_put clock fuel cache a b c va vb vc ta tb tc default now
        = Some result ->
        OrderedDict.keys (Cache._entries result) = [a; c])) as Hrun.
  { intros fuel. unfold put_put_get3_put.
    (* put(a) *)
    destruct (Cache.put clock fuel cache a va ta now) as [[c1 n1]|] eqn:H1.
    2: { split; [|done]. intros Hf.
         destruct (put_returns_fuel clock fuel cache a va ta now) as [? Hs];
           [lia | rewrite Hempty; simpl; lia | congruence]. }
    pose proof (put_inv clock _ _ _ _ _ _ _ _ Hinv H1) as Hinv1.
    destruct (put_config clock _ _ _ _ _ _ _ _ (inv_keys _ Hinv) H1)
      as (Hms1 & Hmm1 & Hpol1 & _).
    destruct (put_spec clock _ _ _ _ _ _ _ _ (inv_keys _ Hinv) H1)
      as (c0 & Hev0 & _ & _ & _ & Hc1).
    set (ea := new_entry clock cache a va ta now) in *.
    assert (Cache._entries c1 = [(a, ea)]) as Hd1.
    { pose proof (ev_entries _ _ Hev0) as Hsub. rewrite Hempty in Hsub.
      apply sublist_nil_r in Hsub. rewrite Hc1. simpl. by rewrite Hsub. }
    clear Hc1 Hev0 c0.
    (* put(b) *)
    destruct (Cache.put clock fuel c1 b vb tb n1) as [[c2 n2]|] eqn:H2.
    2: { split; [|done]. intros Hf.
         destruct (put_returns_fuel clock fuel c1 b vb tb n1) as [? Hs];
           [lia | rewrite Hd1; simpl; lia | congruence]. }
    pose proof (put_inv clock _ _ _ _ _ _ _ _ Hinv1 H2) as Hinv2.
    destruct (put_config clock _ _ _ _ _ _ _ _ (inv_keys _ Hinv1) H2)
      as (Hms2 & Hmm2 & Hpol2 & _).
    set (eb := new_entry clock c1 b vb tb n1).
    assert (Cache._entries c2 = [(a, ea); (b, eb)]) as Hd2.
    { apply (put_second_slot clock fuel c1 a ea b vb tb n1 c2 n2);
        [done | lia | congruence | done | | | | | done].
      - rewrite Hd1. apply elem_of_cons; by left.
      - rewrite Hd1. simpl. lia.
      - rewrite Hd1. simpl. lia.
      - simpl. lia. }
    (* get(a), three times *)
    destruct (lfu_get_first clock c2 a ea [(b, eb)] default n2)
      as (c3 & ea1 & n3 & -> & Hinv3 & Hpol3 & Hms3 & Hmm3 & Hd3 & Hnever1
          & Hsz1 & Hcnt1); [done | congruence | done | done |].
    destruct (lfu_get_first clock c3 a ea1 [(b, eb)] default n3)
      as (c4 & ea2 & n4 & -> & Hinv4 & Hpol4 & Hms4 & Hmm4 & Hd4 & Hnever2
          & Hsz2 & Hcnt2); [done..|].
    destruct (lfu_get_first clock c4 a ea2 [(b, eb)] default n4)
      as (c5 & ea3 & n5 & -> & Hinv5 & Hpol5 & Hms5 & Hmm5 & Hd5 & Hnever3
          & Hsz3 & Hcnt3); [done..|].
    (* put(c) *)
    destruct (Cache.put clock fuel c5 c vc tc n5) as [[c6 n6]|] eqn:H3.
    2: { split; [|done]. intros Hf.
         destruct (put_returns_fuel clock fuel c5 c vc tc n5) as [? Hs];
           [lia | rewrite Hd5; simpl; lia | congruence]. }
    split; [done|]. intros result [= <-].
    assert (CacheEntry.size ea = CacheEntry._estimate_size va) as Hsz by done.
    assert (CacheEntry.access_count ea = 0) as Hcnt by done.
    rewrite (put_second_slot clock fuel c5 a ea3 c vc tc n5 c6 n6);
      [done | done | lia | congruence | done | | | | | done].
    - rewrite Hd5. apply elem_of_cons; by left.
    - rewrite Hd5. simpl. lia.
    - intros _. apply (lfu_victim_of_two c5 a ea3 b eb);
        [done | done | done | simpl; lia].
    - lia. }
  split.
  - destruct (proj1 (Hrun 3%nat)) as [r Hr]; [lia|]. eauto.
  - intros fuel result Hr. by apply (Hrun fuel).
Qed.

(** C4.  [create_cache] checks nothing: with a [max_size] that is not
    positive it registers a cache with that [max_size], on which no [put]
    ever returns, directly or through the manager: the loop on the number
    of entries of [_evict_if_needed] ignores the [False] of [_evict_one],
    which the loop on memory heeds. *)
Theorem put_never_returns_without_capacity (m : CacheManager.t K)
    name max_size max_memory policy ttl fuel k v ttl' now :
  max_size <= 0 ->
  let cache :=
    (CacheManager.create_cache m name max_size max_memory policy ttl).1 in
  let m' :=
    (CacheManager.create_cache m name max_size max_memory policy ttl).2 in
  Cache.max_size cache = max_size /\
  CacheManager.get_cache m' name = Some cache /\
  Cache.put clock fuel cache k v ttl' now = None /\
  CacheManager.put clock fuel m' name k v ttl' now = None.
Proof.
  intros Hmax cache m'. split_and!.
  - done.
  - apply od_get_set.
  - by apply put_diverges.
  - unfold CacheManager.put. subst m'. simpl. rewrite od_get_set.
    by rewrite put_diverges.
Qed.

End Claims.

Lemma total_memory_is_sum_of_sizes_witness :
  reachable ticking_clock small_lru_1 /\
  Cache._total_memory small_lru_1 = total_size (Cache._entries small_lru_1).
Proof.
  assert (reachable ticking_clock small_lru_1) as Hreach.
  { eapply (reach_put ticking_clock 3 small_lru 1%nat (Other 1) None 0%nat).
    - apply reach_init.
    - reflexivity. }
  split; [exact Hreach|].
  exact (proj1 (total_memory_is_sum_of_sizes ticking_clock small_lru_1 Hreach)).
Defined.

Lemma put_respects_max_entries_witness :
  Cache.put ticking_clock 3 small_lru_1 2%nat (Other 2) None 2
  = Some (small_lru_2, 4%nat) /\
  entry_count small_lru_2 <= Cache.max_size small_lru_2 /\
  Cache.max_size small_lru_2 = Cache.max_size small_lru_1.
Proof.
  split; [reflexivity|].
  apply (proj1 (put_respects_max_entries ticking_clock small_lru_1 2%nat
                  (Other 2) None 2%nat) 3%nat small_lru_2 4%nat).
  reflexivity.
Defined.


Lemma oversized_put_leaves_single_entry_witness :
  reachable ticking_clock tight_lru_1 /\
  1 <= Cache.max_size tight_lru_1 /\
  CacheEntry._estimate_size (Seq [Other 1; Other 2])
    > Cache.max_memory tight_lru_1 /\
  Cache.put ticking_clock 3 tight_lru_1 2%nat (Seq [Other 1; Other 2]) None 2
  = Some (tight_lru_2, 4%nat) /\
  exists e,
    Cache._entries tight_lru_2 = [(2%nat, e)] /\
    CacheEntry.value e = Seq [Other 1; Other 2] /\
    CacheEntry.size e = CacheEntry._estimate_size (Seq [Other 1; Other 2]).
Proof.
  assert (reachable ticking_clock tight_lru_1) as Hreach.
  { eapply (reach_put ticking_clock 3 tight_lru 1%nat (Other 1) None 0%nat).
    - apply reach_init.
    - reflexivity. }
  assert (1 <= Cache.max_size tight_lru_1) as Hmax by (simpl; lia).
  assert (CacheEntry._estimate_size (Seq [Other 1; Other 2])
          > Cache.max_memory tight_lru_1) as Hbig by (vm_compute; reflexivity).
  split_and!; [exact Hreach | exact Hmax | exact Hbig | reflexivity |].
  apply (proj2 (oversized_put_leaves_single_entry ticking_clock tight_lru_1
                  2%nat (Seq [Other 1; Other 2]) None 2%nat Hreach Hmax Hbig)
           3%nat tight_lru_2 4%nat).
  reflexivity.
Defined.

Lemma get_expired_entry_witness :
  reachable ticking_clock aging_lru_1 /\
  exists e c',
    OrderedDict.get (Cache._entries aging_lru_1) 1%nat = Some e /\
    CacheEntry.ttl e = Some 5 /\
    ticking_clock 10 - CacheEntry.created_at e > 5 /\
    Cache.get ticking_clock aging_lru_1 1%nat (Other 0) 10
    = (Other 0, c', 11%nat) /\
    OrderedDict.get (Cache._entries c') 1%nat = None /\
    Cache._misses c' = Cache._misses aging_lru_1 + 1 /\
    Cache._hits c' = Cache._hits aging_lru_1.
Proof.
  assert (reachable ticking_clock aging_lru_1) as Hreach.
  { eapply (reach_put ticking_clock 3 aging_lru 1%nat (Other 1) None 0%nat).
    - apply reach_init.
    - reflexivity. }
  split; [exact Hreach|].
  destruct (get_expired_entry ticking_clock aging_lru_1 1%nat
              (CacheEntry.mk 1%nat (Other 1) 0 1 0 (Some 5) 64) 5 (Other 0)
              10%nat Hreach)
    as (c' & Hget & Hgone & _ & _ & Hmiss & Hhit);
    [reflexivity | reflexivity | vm_compute; reflexivity |].
  eexists _, c'.
  split_and!; [reflexivity | reflexivity | vm_compute; reflexivity
              | exact Hget | exact Hgone | exact Hmiss | exact Hhit].
Defined.

Lemma lfu_evicts_earliest_of_least_count_witness :
  reachable ticking_clock small_lfu_2 /\
  Cache.policy small_lfu_2 = CachePolicy.LFU /\
  OrderedDict.keys (Cache._entries small_lfu_2) = [1%nat; 2%nat] /\
  exists d1 k e d2 c',
    Cache._entries small_lfu_2 = d1 ++ (k, e) :: d2 /\
    Cache._evict_one small_lfu_2 = (true, c') /\
    Cache._entries c' = d1 ++ d2 /\
    Forall (fun ke => CacheEntry.access_count e < CacheEntry.access_count ke.2) d1 /\
    Forall (fun ke => CacheEntry.access_count e <= CacheEntry.access_count ke.2) d2.
Proof.
  assert (reachable ticking_clock small_lfu_1) as Hreach1.
  { eapply (reach_put ticking_clock 3 small_lfu 1%nat (Other 1) None 0%nat).
    - apply reach_init.
    - reflexivity. }
  assert (reachable ticking_clock small_lfu_2) as Hreach.
  { eapply (reach_put ticking_clock 3 small_lfu_1 2%nat (Other 2) None 2%nat).
    - exact Hreach1.
    - reflexivity. }
  split_and!; [exact Hreach | reflexivity | reflexivity |].
  apply (proj1 (lfu_evicts_earliest_of_least_count ticking_clock small_lfu_2
                  Hreach eq_refl)).
  discriminate.
Defined.

Lemma lru_sequence_keeps_a_and_c_witness :
  reachable ticking_clock small_lru /\
  (exists fuel result,
      put_put_get_put ticking_clock fuel small_lru 1%nat 2%nat 3%nat
        (Other 1) (Other 2) (Other 3) None None None (Other 0) 0
      = Some result) /\
  (forall fuel result,
      put_put_get_put ticking_clock fuel small_lru 1%nat 2%nat 3%nat
        (Other 1) (Other 2) (Other 3) None None None (Other 0) 0
      = Some result ->
      OrderedDict.keys (Cache._entries result) = [1%nat; 3%nat]).
Proof.
  split; [apply reach_init|].
  apply (lru_sequence_keeps_a_and_c ticking_clock small_lru 1%nat 2%nat 3%nat
           (Other 1) (Other 2) (Other 3) None None None (Other 0) 0%nat).
  - apply reach_init.
  - reflexivity.
  - reflexivity.
  - lia.
  - lia.
  - lia.
  - intros s. reflexivity.
  - vm_compute. discriminate.
  - vm_compute. discriminate.
Defined.

(** C6 as stated fails on a cache whose memory limit is reached: with
    [max_memory = 100] and values of 64 bytes, [put(2)] evicts key 1 and
    [put(3)] evicts key 2, so the sequence leaves key 3 alone. *)
Lemma lru_sequence_counterexample :
  Cache.policy tight_lru = CachePolicy.LRU /\
  Cache.max_size tight_lru = 2 /\
  Cache.default_ttl tight_lru = None /\
  keys_left
    (put_put_get_put ticking_clock 3 tight_lru 1%nat 2%nat 3%nat
       (Other 1) (Other 2) (Other 3) None None None (Other 0) 0)
  = Some [3%nat] /\
  keys_left
    (put_put_get_put ticking_clock 3 tight_lru 1%nat 2%nat 3%nat
       (Other 1) (Other 2) (Other 3) None None None (Other 0) 0)
  <> Some [1%nat; 3%nat].
Proof.
  split_and!; [reflexivity.. | intros Heq; vm_compute in Heq; discriminate Heq].
Qed.

Lemma lfu_sequence_keeps_a_and_c_witness :
  reachable ticking_clock small_lfu /\
  (exists fuel result,
      put_put_get3_put ticking_clock fuel small_lfu 1%nat 2%nat 3%nat
        (Other 1) (Other 2) (Other 3) None None None (Other 0) 0
      = Some result) /\
  (forall fuel result,
      put_put_get3_put ticking_clock fuel small_lfu 1%nat 2%nat 3%nat
        (Other 1) (Other 2) (Other 3) None None None (Other 0) 0
      = Some result ->
      OrderedDict.keys (Cache._entries result) = [1%nat; 3%nat]).
Proof.
  split; [apply reach_init|].
  apply (lfu_sequence_keeps_a_and_c ticking_clock small_lfu 1%nat 2%nat 3%nat
           (Other 1) (Other 2) (Other 3) None None None (Other 0) 0%nat).
  - apply reach_init.
  - reflexivity.
  - reflexivity.
  - reflexivity.
  - lia.
  - lia.
  - lia.
  - intros s. reflexivity.
  - vm_compute. discriminate.
  - vm_compute. discriminate.
Defined.

(** C7 as stated fails on a cache whose memory limit is reached (the
    sequence leaves key 3 alone), and on a cache that already holds an entry
    read more often than [a] will be: [put(2)] then evicts key 1, and the
    sequence leaves keys 9 and 3. *)
Lemma lfu_sequence_counterexample :
  (Cache.policy tight_lfu = CachePolicy.LFU /\
   Cache.max_size tight_lfu = 2 /\
   Cache.default_ttl tight_lfu = None /\
   keys_left
     (put_put_get3_put ticking_clock 3 tight_lfu 1%nat 2%nat 3%nat
        (Other 1) (Other 2) (Other 3) None None None (Other 0) 0)
   = Some [3%nat] /\
   keys_left
     (put_put_get3_put ticking_clock 3 tight_lfu 1%nat 2%nat 3%nat
        (Other 1) (Other 2) (Other 3) None None None (Other 0) 0)
   <> Some [1%nat; 3%nat]) /\
  (Cache.policy warm_lfu = CachePolicy.LFU /\
   Cache.max_size warm_lfu = 2 /\
   Cache.max_memory warm_lfu = 1000 /\
   Cache.default_ttl warm_lfu = None /\
   keys_left
     (put_put_get3_put ticking_clock 3 warm_lfu 1%nat 2%nat 3%nat
        (Other 1) (Other 2) (Other 3) None None None (Other 0) 7)
   = Some [9%nat; 3%nat] /\
   keys_left
     (put_put_get3_put ticking_clock 3 warm_lfu 1%nat 2%nat 3%nat
        (Other 1) (Other 2) (Other 3) None None None (Other 0) 7)
   <> Some [1%nat; 3%nat]).
Proof.
  split; split_and!;
    first [reflexivity | intros Heq; vm_compute in Heq; discriminate Heq].
Qed.

Lemma put_never_returns_without_capacity_witness :
  (0 <= 0) /\
  Cache.max_size (CacheManager.create_cache bare_manager "bad" 0 1000
                    CachePolicy.LRU None).1 = 0 /\
  CacheManager.put ticking_clock 1000
    (CacheManager.create_cache bare_manager "bad" 0 1000 CachePolicy.LRU None).2
    "bad" 1%nat (Other 1) None 0
  = None.
Proof.
  pose proof (put_never_returns_without_capacity ticking_clock bare_manager
                "bad" 0 1000 CachePolicy.LRU None 1000%nat 1%nat (Other 1)
                None 0%nat ltac:(lia)) as (Hsize & _ & _ & Hput).
  split_and!; [lia | exact Hsize | exact Hput].
Defined.


Lemma busy_manager_reachable :
  Forall (fun nc => reachable late_clock nc.2)
         (CacheManager._caches (busy_manager late_clock)).
Proof.
  set (d := CacheManager._caches (busy_manager late_clock)).
  vm_compute in d. subst d.
  constructor; [apply (reach_init late_clock "tile_surfaces")|].
  constructor; [apply (reach_init late_clock "animation_frames")|].
  constructor.
  { apply (reach_put late_clock 11
             (Cache.init "collision_groups" 10 (10 * 1024 * 1024)
                CachePolicy.LRU (Some 5))
             1%nat (Other 1) None 1%nat _ 3%nat).
    - apply reach_init.
    - reflexivity. }
  constructor; [apply (reach_init late_clock "level_data")|].
  constructor; [apply (reach_init late_clock "sounds")|].
  constructor.
Qed.



(** * Further properties of the code *)

(** ** More facts about the dictionary model *)

Section MoreOrderedDictFacts.
Context {K V : Type} `{EqDecision K}.
Implicit Types (d : OrderedDict.t K V) (k : K) (v : V).

Lemma od_get_app d1 d2 k :
  OrderedDict.get (d1 ++ d2) k =
  match OrderedDict.get d1 k with
  | Some v => Some v
  | None => OrderedDict.get d2 k
  end.
Proof.
  induction d1 as [|[k' v'] d1 IH]; simpl; [done|].
  by case_decide.
Qed.

Lemma od_get_drop_middle d1 d2 k v k' :
  k' <> k ->
  OrderedDict.get (d1 ++ d2) k' = OrderedDict.get (d1 ++ (k, v) :: d2) k'.
Proof.
  intros Hne. rewrite !od_get_app. simpl. by rewrite decide_False.
Qed.

Lemma od_get_set_ne d k v k' :
  k' <> k ->
  OrderedDict.get (OrderedDict.set d k v) k' = OrderedDict.get d k'.
Proof.
  intros Hne. induction d as [|[k0 v0] d IH]; simpl.
  - by rewrite decide_False.
  - destruct (decide (k = k0)) as [->|Hk0]; simpl.
    + by rewrite !(decide_False (P := k' = k0)).
    + by rewrite IH.
Qed.

Lemma od_keys_set_present d k v :
  k ∈ OrderedDict.keys d ->
  OrderedDict.keys (OrderedDict.set d k v) = OrderedDict.keys d.
Proof.
  induction d as [|[k0 v0] d IH]; simpl.
  - intros []%elem_of_nil.
  - intros Hin. destruct (decide (k = k0)) as [->|Hk0]; simpl; [done|].
    f_equal. apply IH. apply elem_of_cons in Hin as [?|?]; [done | done].
Qed.

Lemma od_keys_set_absent d k v :
  k ∉ OrderedDict.keys d ->
  OrderedDict.keys (OrderedDict.set d k v) = OrderedDict.keys d ++ [k].
Proof.
  intros Hk. rewrite od_set_absent by (by apply od_get_None).
  by rewrite od_keys_app.
Qed.

Lemma od_get_keys d k v :
  OrderedDict.get d k = Some v -> k ∈ OrderedDict.keys d.
Proof.
  intros Hg. destruct (decide (k ∈ OrderedDict.keys d)) as [|Hn]; [done|].
  apply od_get_None in Hn. congruence.
Qed.
End MoreOrderedDictFacts.

(** ** The size estimator *)

Lemma fold_add_shift (l : list Z) (a : Z) :
  fold_left Z.add l a = a + fold_left Z.add l 0.
Proof.
  revert a. induction l as [|x l IH]; intros a; simpl; [lia|].
  rewrite (IH (a + x)), (IH (0 + x)). lia.
Qed.

Lemma py_sum_cons (x : Z) (l : list Z) : py_sum (x :: l) = x + py_sum l.
Proof. unfold py_sum. simpl. apply fold_add_shift. Qed.

Lemma py_sum_app (l1 l2 : list Z) : py_sum (l1 ++ l2) = py_sum l1 + py_sum l2.
Proof.
  induction l1 as [|x l1 IH]; simpl.
  - unfold py_sum at 2. simpl. lia.
  - rewrite !py_sum_cons, IH. lia.
Qed.

(** X1.  [_estimate_size] never returns a negative size; the size of a list
    or tuple is the sum of the sizes of its items, so it is additive over
    concatenation, an empty list costs nothing and nesting lists does not
    change the estimate; a dictionary costs its keys and its values. *)
Theorem estimate_size_of_collections (l1 l2 : list pyvalue)
    (d1 d2 : list (pyvalue * pyvalue)) (v : pyvalue) :
  0 <= CacheEntry._estimate_size v /\
  CacheEntry._estimate_size (Seq []) = 0 /\
  CacheEntry._estimate_size (Seq (l1 ++ l2))
  = CacheEntry._estimate_size (Seq l1) + CacheEntry._estimate_size (Seq l2) /\
  CacheEntry._estimate_size (Seq [Seq l1; Seq l2])
  = CacheEntry._estimate_size (Seq (l1 ++ l2)) /\
  CacheEntry._estimate_size (Dict (d1 ++ d2))
  = CacheEntry._estimate_size (Dict d1) + CacheEntry._estimate_size (Dict d2) /\
  CacheEntry._estimate_size (Dict d1)
  = CacheEntry._estimate_size (Seq (map fst d1))
    + CacheEntry._estimate_size (Seq (map snd d1)).
Proof.
  split_and!.
  - apply estimate_size_nonneg.
  - reflexivity.
  - simpl. by rewrite map_app, py_sum_app.
  - simpl. rewrite map_app, py_sum_app, !py_sum_cons.
    unfold py_sum at 3. simpl. lia.
  - simpl. by rewrite map_app, py_sum_app.
  - simpl. induction d1 as [|[a b] d1 IH]; simpl; [reflexivity|].
    rewrite !py_sum_cons, IH. simpl. lia.
Qed.

(** ** The entries and counters of a reachable cache *)

Section MoreCacheFacts.
Context {K : Type} `{EqDecision K}.
Variable clock : nat -> Z.
Implicit Types (c : Cache.t K) (k : K) (e : CacheEntry.t K).

Lemma access_wf k e now :
  entry_wf (k, e) -> entry_wf (k, (CacheEntry.access clock e now).1.2).
Proof. intros (Hk & Hs & Hc). split_and!; simpl in *; [done | done | lia]. Qed.

Lemma new_entry_wf c k v ttl now : entry_wf (k, new_entry clock c k v ttl now).
Proof. split_and!; simpl; [done | done | lia]. Qed.

(** Entries are well formed and the counters are not negative *)
Lemma reachable_wf c :
  reachable clock c ->
  Forall entry_wf (Cache._entries c) /\ 0 <= Cache._hits c /\ 0 <= Cache._misses c.
Proof.
  induction 1 as [ | c k default now Hc IH | fuel c k v ttl now c' now' Hc IH Hput
                 | c k _ IH | c _ IH | c now _ IH ].
  - split_and!; simpl; [constructor | lia | lia].
  - destruct IH as (Hwf & Hh & Hm).
    destruct (OrderedDict.get (Cache._entries c) k) as [e|] eqn:Hg.
    2: { rewrite get_miss by done. simpl. split_and!; [done | lia | lia]. }
    destruct (CacheEntry.is_expired clock e now).1 eqn:Hx.
    { rewrite (get_expired clock _ _ _ _ _ Hg Hx). simpl.
      pose proof (remove_evicted c k) as Hev. split_and!; [|
        | lia].
      - eapply sublist_Forall; [apply Hev | done].
      - rewrite (ev_hits _ _ Hev). lia. }
    destruct (get_hit clock _ _ _ default _ Hg Hx)
      as (d1 & d2 & e' & Hd & Hk & -> & ->).
    rewrite Hd in Hwf. apply Forall_app in Hwf as [Hwf1 [Hwfe Hwf2]%Forall_cons].
    simpl. split_and!; [|lia|lia].
    destruct (String.eqb (Cache.policy c) CachePolicy.LRU).
    + rewrite !Forall_app, Forall_singleton.
      split_and!; [done | done | by apply access_wf].
    + rewrite Forall_app, Forall_cons.
      split_and!; [done | by apply access_wf | done].
  - destruct IH as (Hwf & Hh & Hm).
    pose proof (reachable_inv clock c Hc) as Hinv.
    destruct (put_spec clock _ _ _ _ _ _ _ _ (inv_keys _ Hinv) Hput)
      as (c2 & Hev & _ & _ & _ & ->).
    simpl. rewrite (ev_hits _ _ Hev), (ev_misses _ _ Hev).
    split_and!; [|done|done].
    rewrite Forall_app, Forall_singleton. split.
    + eapply sublist_Forall; [apply Hev | done].
    + apply (new_entry_wf c).
  - destruct IH as (Hwf & Hh & Hm). pose proof (remove_evicted c k) as Hev.
    rewrite (ev_hits _ _ Hev), (ev_misses _ _ Hev).
    split_and!; [|done|done]. eapply sublist_Forall; [apply Hev | done].
  - simpl. split_and!; [constructor | lia | lia].
  - destruct IH as (Hwf & Hh & Hm).
    pose proof (evict_expired_evicted clock c now) as Hev.
    rewrite (ev_hits _ _ Hev), (ev_misses _ _ Hev).
    split_and!; [|done|done]. eapply sublist_Forall; [apply Hev | done].
Qed.

(** X2.  In every reachable cache the keys are pairwise distinct, every
    entry is stored under its own key, its [size] is the estimate of its
    value, its [access_count] is not negative, and the memory counter is not
    negative. *)
Theorem reachable_entries_well_formed c :
  reachable clock c ->
  NoDup (OrderedDict.keys (Cache._entries c)) /\
  (forall k e,
      OrderedDict.get (Cache._entries c) k = Some e ->
      CacheEntry.key e = k /\
      CacheEntry.size e = CacheEntry._estimate_size (CacheEntry.value e) /\
      0 <= CacheEntry.access_count e) /\
  0 <= Cache._total_memory c.
Proof.
  intros Hc. pose proof (reachable_inv clock c Hc) as [Hnd Hmem Hsz].
  destruct (reachable_wf c Hc) as (Hwf & _ & _). split_and!.
  - done.
  - intros k e Hg%od_get_elem.
    rewrite Forall_forall in Hwf. exact (Hwf (k, e) Hg).
  - rewrite Hmem. by apply total_size_nonneg.
Qed.

(** X3.  [get_stats] of a reachable cache: the hit rate lies between 0 and
    1 and is 0 when no [get] was counted; [size] is the number of entries
    and [memory] the sum of their sizes; the counters are not negative. *)
Theorem get_stats_of_reachable c :
  reachable clock c ->
  let s := Cache.get_stats c in
  QArith_base.Qle (QArith_base.Qmake 0 1) (Cache.stats_hit_rate s) /\
  QArith_base.Qle (Cache.stats_hit_rate s) (QArith_base.Qmake 1 1) /\
  (Cache._hits c + Cache._misses c = 0 ->
   Cache.stats_hit_rate s = QArith_base.Qmake 0 1) /\
  Cache.stats_size s = entry_count c /\
  Cache.stats_memory s = total_size (Cache._entries c) /\
  0 <= Cache.stats_hits s /\ 0 <= Cache.stats_misses s.
Proof.
  intros Hc s. destruct (reachable_wf c Hc) as (_ & Hh & Hm).
  pose proof (inv_memory _ (reachable_inv clock c Hc)) as Hmem.
  subst s. unfold Cache.get_stats. simpl.
  split_and!; try done.
  - case_bool_decide; unfold QArith_base.Qle; simpl; lia.
  - case_bool_decide; unfold QArith_base.Qle; simpl; [|lia].
    rewrite Z2Pos.id by lia. lia.
  - intros Hzero. by rewrite bool_decide_eq_false_2 by lia.
Qed.

(** X4.  After [put(k, v)] returns on a reachable cache, the cache holds for
    [k] the entry that [put] created, and a [get(k)] at any reading of the
    clock at which that entry is not expired returns [v] and counts a
    hit. *)
Theorem get_after_put fuel c k v ttl now c' now' :
  reachable clock c ->
  Cache.put clock fuel c k v ttl now = Some (c', now') ->
  OrderedDict.get (Cache._entries c') k = Some (new_entry clock c k v ttl now) /\
  (forall default s,
      (CacheEntry.is_expired clock (new_entry clock c k v ttl now) s).1 = false ->
      exists c'' s',
        Cache.get clock c' k default s = (v, c'', s') /\
        Cache._hits c'' = Cache._hits c' + 1 /\
        Cache._misses c'' = Cache._misses c').
Proof.
  intros Hc Hput. pose proof (reachable_inv clock c Hc) as Hinv.
  destruct (put_spec clock _ _ _ _ _ _ _ _ (inv_keys _ Hinv) Hput)
    as (c2 & Hev & Hk & _ & _ & Hc').
  assert (OrderedDict.get (Cache._entries c') k
          = Some (new_entry clock c k v ttl now)) as Hg.
  { rewrite Hc'. simpl. rewrite od_get_app_absent by done. apply od_get_here. }
  split; [done|]. intros default s Hx.
  destruct (get_hit clock c' k _ default s Hg Hx)
    as (d1 & d2 & e' & _ & _ & _ & ->).
  eexists _, _. split; [reflexivity|]. done.
Qed.

(** X5.  [put] replaces: when it returns, the new entry is the last one of
    the dictionary, the entries before it are entries the cache held, in
    their order, none of them under [k]; the hit and miss counters and the
    limits are untouched.  The entry starts with a count of 0, at the time
    of the call, and with the TTL of the call, or the default TTL of the
    cache when the call gives none or gives 0. *)
Theorem put_replaces_and_appends fuel c k v ttl now c' now' :
  reachable clock c ->
  Cache.put clock fuel c k v ttl now = Some (c', now') ->
  exists kept e,
    Cache._entries c' = kept ++ [(k, e)] /\
    sublist kept (Cache._entries c) /\
    (k ∉ OrderedDict.keys kept) /\
    CacheEntry.value e = v /\
    CacheEntry.access_count e = 0 /\
    CacheEntry.created_at e = clock now /\
    (ttl = None \/ ttl = Some 0 -> CacheEntry.ttl e = Cache.default_ttl c) /\
    (forall d, ttl = Some d -> d <> 0 -> CacheEntry.ttl e = Some d) /\
    Cache._hits c' = Cache._hits c /\
    Cache._misses c' = Cache._misses c /\
    Cache.max_size c' = Cache.max_size c /\
    Cache.max_memory c' = Cache.max_memory c /\
    Cache.policy c' = Cache.policy c /\
    Cache.default_ttl c' = Cache.default_ttl c.
Proof.
  intros Hc Hput. pose proof (reachable_inv clock c Hc) as Hinv.
  destruct (put_spec clock _ _ _ _ _ _ _ _ (inv_keys _ Hinv) Hput)
    as (c2 & Hev & Hk & _ & _ & ->).
  eexists (Cache._entries c2), _. simpl.
  split_and!; try done; try apply Hev.
  - unfold Cache.ttl_or. intros [->| ->]; [done|]. by rewrite decide_True.
  - intros d -> Hd. unfold Cache.ttl_or. by rewrite decide_False.
Qed.
End MoreCacheFacts.

(** ** [remove] and [get] *)

Section RemoveAndGet.
Context {K : Type} `{EqDecision K}.
Variable clock : nat -> Z.
Implicit Types (c : Cache.t K) (k : K) (e : CacheEntry.t K).

(** X6.  [remove] on a reachable cache returns [True] exactly when the key
    is present; afterwards the key is absent, every other key maps to what
    it mapped to, the order of the remaining entries is kept, the memory
    counter has lost the size of the removed entry, and a second [remove] of
    the key returns [False] and changes nothing. *)
Theorem remove_drops_one_key c k :
  reachable clock c ->
  ((Cache.remove c k).1 = true <->
   k ∈ OrderedDict.keys (Cache._entries c)) /\
  OrderedDict.get (Cache._entries (Cache.remove c k).2) k = None /\
  (forall k', k' <> k ->
      OrderedDict.get (Cache._entries (Cache.remove c k).2) k'
      = OrderedDict.get (Cache._entries c) k') /\
  sublist (Cache._entries (Cache.remove c k).2) (Cache._entries c) /\
  Cache._total_memory (Cache.remove c k).2
  = Cache._total_memory c
    - match OrderedDict.get (Cache._entries c) k with
      | Some e => CacheEntry.size e
      | None => 0
      end /\
  Cache.remove (Cache.remove c k).2 k = (false, (Cache.remove c k).2).
Proof.
  intros Hc. pose proof (reachable_inv clock c Hc) as Hinv.
  pose proof (remove_gone c k (inv_keys _ Hinv)) as Hgone.
  apply od_get_None in Hgone.
  destruct (OrderedDict.get (Cache._entries c) k) as [e|] eqn:Hg.
  - pose proof (od_get_keys _ _ _ Hg) as Hin.
    destruct (remove_present c k e Hg) as (d1 & d2 & Hd & Hk & Hrm).
    rewrite Hrm in Hgone |- *. simpl in *.
    split_and!; [done | done | | | done |].
    + intros k' Hne. rewrite Hd. by apply od_get_drop_middle.
    + rewrite Hd. apply sublist_drop_middle.
    + by apply remove_absent.
  - assert (k ∉ OrderedDict.keys (Cache._entries c)) as Hnin
      by (by apply od_get_None).
    rewrite remove_absent by done. simpl.
    split_and!; [done | done | done | done | lia |].
    by apply remove_absent.
Qed.

(** X7.  Whatever the key and the time, a [get] on a reachable cache leaves
    every other key with the entry it had, leaves the limits and the policy
    alone, counts exactly one request more (a hit or a miss), and never
    adds to the number of entries nor to the memory counter. *)
Theorem get_touches_one_key c k default now :
  reachable clock c ->
  let c' := (Cache.get clock c k default now).1.2 in
  (forall k', k' <> k ->
      OrderedDict.get (Cache._entries c') k'
      = OrderedDict.get (Cache._entries c) k') /\
  Cache.max_size c' = Cache.max_size c /\
  Cache.max_memory c' = Cache.max_memory c /\
  Cache.policy c' = Cache.policy c /\
  Cache.default_ttl c' = Cache.default_ttl c /\
  Cache._hits c' + Cache._misses c' = Cache._hits c + Cache._misses c + 1 /\
  (length (Cache._entries c') <= length (Cache._entries c))%nat /\
  Cache._total_memory c' <= Cache._total_memory c.
Proof.
  intros Hc c'. subst c'. pose proof (reachable_inv clock c Hc) as Hinv.
  destruct (OrderedDict.get (Cache._entries c) k) as [e|] eqn:Hg.
  2: { rewrite get_miss by done. simpl. split_and!; try done; lia. }
  destruct (CacheEntry.is_expired clock e now).1 eqn:Hx.
  { rewrite (get_expired clock _ _ _ _ _ Hg Hx). simpl.
    pose proof (remove_evicted c k) as Hev.
    destruct (remove_present c k e Hg) as (d1 & d2 & Hd & Hk & Hrm).
    pose proof (inv_sizes _ Hinv) as Hsz. rewrite Hd in Hsz.
    apply Forall_app in Hsz as [_ [Hsze _]%Forall_cons].
    rewrite Hrm in Hev |- *. simpl in *.
    split_and!; try done.
    - intros k' Hne. rewrite Hd. by apply od_get_drop_middle.
    - lia.
    - rewrite Hd, !length_app. simpl. lia.
    - lia. }
  destruct (get_hit clock _ _ _ default _ Hg Hx)
    as (d1 & d2 & e' & Hd & Hk & -> & ->).
  simpl. split_and!; try done; try lia.
  - intros k' Hne. rewrite Hd.
    destruct (String.eqb (Cache.policy c) CachePolicy.LRU).
    + rewrite <- (od_get_drop_middle d1 d2 k e k' Hne).
      rewrite !od_get_app. simpl. rewrite decide_False by done.
      by destruct (OrderedDict.get d1 k'), (OrderedDict.get d2 k').
    + rewrite <- (od_get_drop_middle d1 d2 k e k' Hne).
      by rewrite <- (od_get_drop_middle d1 d2 k _ k' Hne).
  - rewrite Hd. destruct (String.eqb (Cache.policy c) CachePolicy.LRU);
      rewrite !length_app; simpl; rewrite ?length_app; simpl; lia.
Qed.

(** X8.  A [get] of a key whose entry a reachable cache holds and which is
    not expired at that reading returns the stored value, counts a hit and
    no miss, adds one to the [access_count] of the entry and stamps it with
    the time of the access, and changes neither its value, creation time,
    TTL or size nor the memory counter.  Under LRU the entry becomes the
    last of the dictionary, behind the others in their order; under any
    other policy the dictionary keeps its order. *)
Theorem get_hit_updates_entry c k e default now :
  reachable clock c ->
  OrderedDict.get (Cache._entries c) k = Some e ->
  (CacheEntry.is_expired clock e now).1 = false ->
  exists c' e' now',
    Cache.get clock c k default now = (CacheEntry.value e, c', S now') /\
    OrderedDict.get (Cache._entries c') k = Some e' /\
    CacheEntry.access_count e' = CacheEntry.access_count e + 1 /\
    CacheEntry.last_accessed e' = clock now' /\
    CacheEntry.value e' = CacheEntry.value e /\
    CacheEntry.created_at e' = CacheEntry.created_at e /\
    CacheEntry.ttl e' = CacheEntry.ttl e /\
    CacheEntry.size e' = CacheEntry.size e /\
    Cache._hits c' = Cache._hits c + 1 /\
    Cache._misses c' = Cache._misses c /\
    Cache._total_memory c' = Cache._total_memory c /\
    (Cache.policy c = CachePolicy.LRU ->
     Cache._entries c' = (OrderedDict.pop (Cache._entries c) k).2 ++ [(k, e')]) /\
    (Cache.policy c <> CachePolicy.LRU ->
     OrderedDict.keys (Cache._entries c') = OrderedDict.keys (Cache._entries c)).
Proof.
  intros Hc Hg Hx.
  destruct (get_hit clock _ _ _ default _ Hg Hx)
    as (d1 & d2 & e' & Hd & Hk & He' & Hget).
  eexists _, e', _. split; [exact Hget|]. subst e'. simpl.
  split_and!; try done.
  - destruct (String.eqb (Cache.policy c) CachePolicy.LRU).
    + rewrite !od_get_app. rewrite (proj2 (od_get_None d1 k) Hk).
      assert (OrderedDict.get d2 k = None) as ->.
      { apply od_get_None. intros Hin.
        pose proof (inv_keys _ (reachable_inv clock c Hc)) as Hnd.
        rewrite Hd, od_keys_app in Hnd. simpl in Hnd.
        apply NoDup_app in Hnd as (_ & _ & [Hk2 _]%NoDup_cons). done. }
      apply od_get_here.
    + rewrite od_get_app_absent by done. apply od_get_here.
  - intros Hpol. rewrite Hpol, String.eqb_refl, Hd, od_pop_app by done.
    simpl. by rewrite <- app_assoc.
  - intros Hpol. apply String.eqb_neq in Hpol. rewrite Hpol, Hd.
    by rewrite !od_keys_app.
Qed.
End RemoveAndGet.

(** ** [put] and the eviction pass, when nothing expires *)

Section PutAndEvict.
Context {K : Type} `{EqDecision K}.
Variable clock : nat -> Z.
Implicit Types (c : Cache.t K) (k : K) (e : CacheEntry.t K).
Implicit Types (d : OrderedDict.t K (CacheEntry.t K)).

Lemma remove_entries c k :
  Cache._entries (Cache.remove c k).2 = (OrderedDict.pop (Cache._entries c) k).2.
Proof.
  unfold Cache.remove.
  by destruct (OrderedDict.pop (Cache._entries c) k) as [[e|] d].
Qed.

Lemma expired_keys_none (items : list (K * CacheEntry.t K)) now :
  Forall (fun ke => never_expires clock ke.2) items ->
  (Cache.expired_keys clock items now).1 = [].
Proof.
  intros Hall. revert now.
  induction Hall as [|[k e] items He _ IH]; intros now; simpl; [done|].
  specialize (He now). simpl in He.
  destruct (CacheEntry.is_expired clock e now) as [b now1].
  simpl in He. subst b. specialize (IH now1).
  by destruct (Cache.expired_keys clock items now1) as [ks now2].
Qed.

Lemma evict_expired_none c now :
  Forall (fun ke => never_expires clock ke.2) (Cache._entries c) ->
  (Cache._evict_expired clock c now).1 = c.
Proof.
  intros Hall. unfold Cache._evict_expired.
  pose proof (expired_keys_none (Cache._entries c) now Hall) as Hks.
  destruct (Cache.expired_keys clock (Cache._entries c) now) as [ks now1].
  simpl in Hks. by subst ks.
Qed.

(** Unless the policy is "lfu", the victim is the first entry *)
Lemma evict_one_first c k e d :
  Cache.policy c <> CachePolicy.LFU ->
  Cache._entries c = (k, e) :: d ->
  Cache._evict_one c =
    (true,
     Cache.set_total_memory (Cache.set_entries c d)
       (Cache._total_memory c - CacheEntry.size e)).
Proof.
  intros Hpol Hd. apply String.eqb_neq in Hpol.
  unfold Cache._evict_one, Cache.remove. rewrite Hd, Hpol. simpl.
  destruct (String.eqb (Cache.policy c) CachePolicy.LRU),
    (String.eqb (Cache.policy c) CachePolicy.FIFO);
    by rewrite decide_True.
Qed.

(** X9.  A [put] that meets no limit evicts nothing: on a reachable cache
    none of whose entries expires, if the entries other than the one of [k]
    are fewer than [max_size] and their sizes with the size of the new value
    do not exceed [max_memory], [put] returns, with any fuel, the entries
    other than the one of [k], in their order, followed by the new entry. *)
Theorem put_with_room_evicts_nothing fuel c k v ttl now :
  reachable clock c ->
  Forall (fun ke => never_expires clock ke.2) (Cache._entries c) ->
  let others := (OrderedDict.pop (Cache._entries c) k).2 in
  Z.of_nat (length others) < Cache.max_size c ->
  total_size others + CacheEntry._estimate_size v <= Cache.max_memory c ->
  (0 < fuel)%nat ->
  exists c' now',
    Cache.put clock fuel c k v ttl now = Some (c', now') /\
    Cache._entries c' = others ++ [(k, new_entry clock c k v ttl now)] /\
    Cache._total_memory c' = total_size others + CacheEntry._estimate_size v.
Proof.
  intros Hc Hall others Hcount Hmem Hfuel.
  pose proof (reachable_inv clock c Hc) as Hinv. unfold Cache.put.
  set (c1 := if OrderedDict.contains (Cache._entries c) k
             then (Cache.remove c k).2 else c).
  assert (evicted_from c c1) as Hev1.
  { subst c1. case_match; [apply remove_evicted | apply evicted_refl]. }
  assert (Cache._entries c1 = others) as Hd1.
  { subst c1 others. unfold OrderedDict.contains.
    destruct (OrderedDict.get (Cache._entries c) k) eqn:Hg.
    - apply remove_entries.
    - by rewrite od_pop_absent. }
  assert (k ∉ OrderedDict.keys (Cache._entries c1)) as Hk1.
  { subst c1. unfold OrderedDict.contains.
    destruct (OrderedDict.get (Cache._entries c) k) eqn:Hg.
    - apply remove_gone, Hinv.
    - by apply od_get_None. }
  pose proof (evicted_inv _ _ Hev1 Hinv) as Hinv1.
  assert (Forall (fun ke => never_expires clock ke.2) (Cache._entries c1))
    as Hall1 by (eapply sublist_Forall; [apply Hev1 | done]).
  clearbody c1. unfold CacheEntry.init, Cache._evict_if_needed. simpl.
  pose proof (evict_expired_none c1 (S (S now)) Hall1) as Hsweep.
  destruct (Cache._evict_expired clock c1 (S (S now))) as [c0 now0].
  simpl in Hsweep. subst c0.
  destruct fuel as [|fuel]; [lia|].
  cbn [Cache.evict_by_size].
  rewrite Hd1, (ev_max_size _ _ Hev1).
  rewrite bool_decide_eq_false_2 by lia.
  cbn [Cache.evict_by_memory].
  rewrite (inv_memory _ Hinv1), Hd1, (ev_max_memory _ _ Hev1).
  rewrite bool_decide_eq_false_2 by lia.
  eexists _, _. split; [reflexivity|]. simpl.
  rewrite Hd1 in Hk1 |- *.
  rewrite od_set_absent by (by apply od_get_None).
  rewrite (inv_memory _ Hinv1), Hd1, (ev_default_ttl _ _ Hev1). done.
Qed.

(** X10.  A [put] of a new key into a full cache evicts exactly one entry,
    the first of the dictionary, under every policy but "lfu" ("lru", "fifo",
    "ttl" or any other string): on a reachable cache with as many entries
    as [max_size], none of which expires, if the sizes of the entries after
    the first with the size of the new value do not exceed [max_memory],
    [put] returns, with any fuel above one, the entries after the first
    followed by the new entry. *)
Theorem put_into_full_cache_evicts_first fuel c k0 e0 d k v ttl now :
  reachable clock c ->
  Cache.policy c <> CachePolicy.LFU ->
  Cache._entries c = (k0, e0) :: d ->
  entry_count c = Cache.max_size c ->
  OrderedDict.get (Cache._entries c) k = None ->
  Forall (fun ke => never_expires clock ke.2) (Cache._entries c) ->
  total_size d + CacheEntry._estimate_size v <= Cache.max_memory c ->
  (1 < fuel)%nat ->
  exists c' now',
    Cache.put clock fuel c k v ttl now = Some (c', now') /\
    Cache._entries c' = d ++ [(k, new_entry clock c k v ttl now)] /\
    Cache._total_memory c' = total_size d + CacheEntry._estimate_size v.
Proof.
  intros Hc Hpol Hd Hfull Hk Hall Hmem Hfuel.
  pose proof (reachable_inv clock c Hc) as Hinv.
  pose proof (inv_memory _ Hinv) as Htotal.
  rewrite Hd, total_size_cons in Htotal. simpl in Htotal.
  unfold entry_count in Hfull. rewrite Hd in Hfull. simpl in Hfull.
  assert (OrderedDict.get d k = None) as Hkd.
  { rewrite Hd in Hk. simpl in Hk. by case_decide. }
  unfold Cache.put, OrderedDict.contains. rewrite Hk.
  unfold CacheEntry.init, Cache._evict_if_needed. simpl.
  pose proof (evict_expired_none c (S (S now)) Hall) as Hsweep.
  destruct (Cache._evict_expired clock c (S (S now))) as [c0 now0].
  simpl in Hsweep. subst c0.
  destruct fuel as [|[|fuel]]; [lia | lia |].
  cbn [Cache.evict_by_size]. rewrite Hd. simpl length.
  rewrite bool_decide_eq_true_2 by lia.
  rewrite (evict_one_first c k0 e0 d Hpol Hd). cbn [snd].
  set (cd := Cache.set_total_memory (Cache.set_entries c d) _).
  cbn [Cache.evict_by_size].
  change (Cache._entries cd) with d.
  change (Cache.max_size cd) with (Cache.max_size c).
  rewrite bool_decide_eq_false_2 by lia.
  cbn [Cache.evict_by_memory].
  change (Cache._total_memory cd)
    with (Cache._total_memory c - CacheEntry.size e0).
  change (Cache.max_memory cd) with (Cache.max_memory c).
  rewrite bool_decide_eq_false_2 by lia.
  eexists _, _. split; [reflexivity|]. simpl.
  rewrite od_set_absent by done. split; [done | lia].
Qed.

Lemma fold_remove_entries (ks : list K) c :
  Cache._entries (fold_left (fun c k => (Cache.remove c k).2) ks c)
  = fold_left (fun d k => (OrderedDict.pop d k).2) ks (Cache._entries c).
Proof.
  revert c. induction ks as [|k ks IH]; intros c; simpl; [done|].
  by rewrite IH, remove_entries.
Qed.

Lemma fold_pop_survivors (pre items : list (K * CacheEntry.t K)) now :
  NoDup (OrderedDict.keys (pre ++ items)) ->
  fold_left (fun d k => (OrderedDict.pop d k).2)
            (Cache.expired_keys clock items now).1 (pre ++ items)
  = pre ++ survivors clock items now.
Proof.
  revert pre now. induction items as [|[k e] items IH]; intros pre now Hnd.
  - done.
  - simpl. destruct (CacheEntry.is_expired clock e now) as [b now1] eqn:Hx.
    specialize (IH pre now1) as IHdrop. specialize (IH (pre ++ [(k, e)]) now1).
    destruct (Cache.expired_keys clock items now1) as [ks now2].
    simpl in *. destruct b; simpl.
    + assert (k ∉ OrderedDict.keys pre) as Hk.
      { rewrite od_keys_app in Hnd. simpl in Hnd.
        apply NoDup_app in Hnd as (_ & Hdisj & _).
        intros Hin. apply (Hdisj k Hin). apply elem_of_cons; by left. }
      rewrite od_pop_app by done. simpl. apply IHdrop.
      eapply sublist_NoDup; [exact Hnd|]. apply sublist_map, sublist_drop_middle.
    + rewrite <- !app_assoc in IH. simpl in IH. by apply IH.
Qed.

(** An entry without TTL stays through the sweep *)
Lemma evict_expired_keeps_the_unexpired_aux c now :
  reachable clock c ->
  forall k e,
    OrderedDict.get (Cache._entries c) k = Some e ->
    CacheEntry.ttl e = None ->
    OrderedDict.get (Cache._entries (Cache._evict_expired clock c now).1) k
    = Some e.
Proof.
  intros Hc k e Hg Hnone. pose proof (reachable_inv clock c Hc) as Hinv.
  apply od_get_NoDup.
  - apply (evicted_inv _ _ (evict_expired_evicted clock c now) Hinv).
  - apply evict_expired_keeps; [apply Hinv | by apply od_get_elem |].
    intros s. unfold CacheEntry.is_expired. by rewrite Hnone.
Qed.

(** X11.  The sweep of [_evict_expired], which first lists the expired keys
    and then removes them, leaves on a reachable cache exactly the entries
    that a single pass testing each entry in turn would keep, in their
    order; in particular an entry without TTL is never swept.  The limits,
    the policy and the counters are untouched. *)
Theorem evict_expired_keeps_the_unexpired c now :
  reachable clock c ->
  let c' := (Cache._evict_expired clock c now).1 in
  Cache._entries c' = survivors clock (Cache._entries c) now /\
  (forall k e,
      OrderedDict.get (Cache._entries c) k = Some e ->
      CacheEntry.ttl e = None ->
      OrderedDict.get (Cache._entries c') k = Some e) /\
  Cache.max_size c' = Cache.max_size c /\
  Cache.max_memory c' = Cache.max_memory c /\
  Cache.policy c' = Cache.policy c /\
  Cache._hits c' = Cache._hits c /\
  Cache._misses c' = Cache._misses c.
Proof.
  intros Hc c'. pose proof (reachable_inv clock c Hc) as Hinv.
  pose proof (evict_expired_evicted clock c now) as Hev. fold c' in Hev.
  split_and!; try apply Hev.
  - subst c'. unfold Cache._evict_expired.
    pose proof (fold_pop_survivors [] (Cache._entries c) now (inv_keys _ Hinv))
      as Hfold.
    destruct (Cache.expired_keys clock (Cache._entries c) now) as [ks now1].
    simpl in *. by rewrite fold_remove_entries.
  - intros k e Hg Hnone.
    apply od_get_NoDup.
    + apply (evicted_inv _ _ Hev Hinv).
    + apply evict_expired_keeps; [apply Hinv | by apply od_get_elem |].
      intros s. unfold CacheEntry.is_expired. by rewrite Hnone.
Qed.
End PutAndEvict.

(** ** The manager: registry, forwarding and accounting *)

Section ManagerFacts.
Context {K : Type} `{EqDecision K}.
Variable clock : nat -> Z.
Implicit Types (m : CacheManager.t K) (c : Cache.t K) (k : K).
Implicit Types (reg : OrderedDict.t string (Cache.t K)).

Lemma od_get_pop_ne {V : Type} (d : OrderedDict.t K V) k k' :
  k' <> k ->
  OrderedDict.get (OrderedDict.pop d k).2 k' = OrderedDict.get d k'.
Proof.
  intros Hne. induction d as [|[k0 v0] d IH]; simpl; [done|].
  destruct (decide (k = k0)) as [->|Hk0]; simpl.
  - by rewrite decide_False.
  - destruct (OrderedDict.pop d k) as [r d']. simpl in *. by rewrite IH.
Qed.

Lemma manager_put_inv fuel m name k v ttl now m' now' :
  CacheManager.put clock fuel m name k v ttl now = Some (m', now') ->
  match CacheManager.get_cache m name with
  | None => m' = m /\ now' = now
  | Some cache =>
      exists cache',
        Cache.put clock fuel cache k v ttl now = Some (cache', now') /\
        m' = CacheManager.set_caches m
               (OrderedDict.set (CacheManager._caches m) name cache')
  end.
Proof.
  unfold CacheManager.put, CacheManager.get_cache.
  destruct (OrderedDict.get (CacheManager._caches m) name) as [cache|].
  - destruct (Cache.put clock fuel cache k v ttl now) as [[cache' n]|];
      [|done].
    intros [= <- <-]. by exists cache'.
  - by intros [= <- <-].
Qed.

(** X12.  [CacheManager.get] and [CacheManager.put] act on the addressed
    cache only: the registry keeps its names in their order, every cache
    under another name is what it was, and the sweep schedule is untouched.
    Under a name that is not registered, [get] returns the default without
    reading the clock and [put] returns at once; neither changes
    anything. *)
Theorem manager_get_put_are_local m name :
  (forall k default now,
      let m' := (CacheManager.get clock m name k default now).1.2 in
      OrderedDict.keys (CacheManager._caches m')
      = OrderedDict.keys (CacheManager._caches m) /\
      (forall name', name' <> name ->
          CacheManager.get_cache m' name' = CacheManager.get_cache m name') /\
      CacheManager._last_gc_time m' = CacheManager._last_gc_time m /\
      CacheManager._gc_interval m' = CacheManager._gc_interval m) /\
  (forall fuel k v ttl now m' now',
      CacheManager.put clock fuel m name k v ttl now = Some (m', now') ->
      OrderedDict.keys (CacheManager._caches m')
      = OrderedDict.keys (CacheManager._caches m) /\
      (forall name', name' <> name ->
          CacheManager.get_cache m' name' = CacheManager.get_cache m name') /\
      CacheManager._last_gc_time m' = CacheManager._last_gc_time m /\
      CacheManager._gc_interval m' = CacheManager._gc_interval m) /\
  (CacheManager.get_cache m name = None ->
   (forall k default now,
       CacheManager.get clock m name k default now = (default, m, now)) /\
   (forall fuel k v ttl now,
       CacheManager.put clock fuel m name k v ttl now = Some (m, now))).
Proof.
  split_and!.
  - intros k default now. unfold CacheManager.get, CacheManager.get_cache.
    destruct (OrderedDict.get (CacheManager._caches m) name) as [cache|] eqn:Hg;
      [|done].
    destruct (Cache.get clock cache k default now) as [[v cache'] n]. simpl.
    split_and!; [|
      |done|done].
    + apply od_keys_set_present. by eapply od_get_keys.
    + intros name' Hne. by apply od_get_set_ne.
  - intros fuel k v ttl now m' now' Hput%manager_put_inv.
    destruct (CacheManager.get_cache m name) as [cache|] eqn:Hg.
    + destruct Hput as (cache' & _ & ->). simpl. split_and!; [|
        |done|done].
      * apply od_keys_set_present. by eapply od_get_keys.
      * intros name' Hne. by apply od_get_set_ne.
    + by destruct Hput as [-> _].
  - intros Hnone. unfold CacheManager.get_cache in Hnone. split.
    + intros k default now. unfold CacheManager.get. by rewrite Hnone.
    + intros fuel k v ttl now. unfold CacheManager.put. by rewrite Hnone.
Qed.

(** X13.  [create_cache] registers a fresh, empty cache with the given
    limits; a cache already registered under the name is replaced where it
    stands, and none of its entries survives: every key of the new cache is
    a miss.  A new name goes to the end of the registry.  The caches under
    other names are untouched. *)
Theorem create_cache_replaces m name max_size max_memory policy ttl :
  let cache :=
    (CacheManager.create_cache m name max_size max_memory policy ttl).1 in
  let m' :=
    (CacheManager.create_cache m name max_size max_memory policy ttl).2 in
  CacheManager.get_cache m' name = Some cache /\
  Cache._entries cache = [] /\
  Cache._total_memory cache = 0 /\
  Cache.max_size cache = max_size /\
  Cache.max_memory cache = max_memory /\
  Cache.policy cache = policy /\
  Cache.default_ttl cache = ttl /\
  (forall k default now,
      (CacheManager.get clock m' name k default now).1.1 = default) /\
  (forall name', name' <> name ->
      CacheManager.get_cache m' name' = CacheManager.get_cache m name') /\
  (name ∈ OrderedDict.keys (CacheManager._caches m) ->
   OrderedDict.keys (CacheManager._caches m')
   = OrderedDict.keys (CacheManager._caches m)) /\
  (name ∉ OrderedDict.keys (CacheManager._caches m) ->
   OrderedDict.keys (CacheManager._caches m')
   = OrderedDict.keys (CacheManager._caches m) ++ [name]).
Proof.
  intros cache m'. subst cache m'. simpl.
  split_and!; try done.
  - apply od_get_set.
  - intros k default now. unfold CacheManager.get. simpl.
    by rewrite od_get_set.
  - intros name' Hne. by apply od_get_set_ne.
  - apply od_keys_set_present.
  - apply od_keys_set_absent.
Qed.

(** X14.  Through the manager too, what was put is got: after
    [put(name, k, v)] returns on a registered, reachable cache,
    [get(name, k)] at any reading of the clock at which the new entry is not
    expired returns [v]. *)
Theorem manager_get_after_put fuel m name cache k v ttl now m' now' :
  CacheManager.get_cache m name = Some cache ->
  reachable clock cache ->
  CacheManager.put clock fuel m name k v ttl now = Some (m', now') ->
  forall default s,
    (CacheEntry.is_expired clock (new_entry clock cache k v ttl now) s).1 = false ->
    (CacheManager.get clock m' name k default s).1.1 = v.
Proof.
  intros Hg Hc Hput%manager_put_inv default s Hx. rewrite Hg in Hput.
  destruct Hput as (cache' & Hput & ->).
  pose proof (reachable_inv clock cache Hc) as Hinv.
  destruct (put_spec clock _ _ _ _ _ _ _ _ (inv_keys _ Hinv) Hput)
    as (c2 & _ & Hk & _ & _ & Hc').
  assert (OrderedDict.get (Cache._entries cache') k
          = Some (new_entry clock cache k v ttl now)) as Hgk.
  { rewrite Hc'. simpl. rewrite od_get_app_absent by done. apply od_get_here. }
  destruct (get_hit clock cache' k _ default s Hgk Hx)
    as (d1 & d2 & e' & _ & _ & _ & Hget).
  unfold CacheManager.get. simpl. rewrite od_get_set, Hget. done.
Qed.
End ManagerFacts.

(** ** The memory of all the caches *)

Section RegistryMemory.
Context {K : Type} `{EqDecision K}.
Variable clock : nat -> Z.
Implicit Types (m : CacheManager.t K) (c : Cache.t K) (k : K).
Implicit Types (reg : OrderedDict.t string (Cache.t K)).

Lemma total_memory_of_registry reg :
  Forall (fun nc => cache_inv nc.2) reg ->
  py_sum (map Cache._total_memory (OrderedDict.values reg)) = registry_size reg.
Proof.
  induction 1 as [|[name c] reg Hc _ IH]; simpl; [done|].
  rewrite py_sum_cons, IH. pose proof (inv_memory _ Hc) as Hmem.
  simpl in Hmem. by rewrite Hmem.
Qed.

Lemma registry_size_nonneg reg :
  Forall (fun nc => cache_inv nc.2) reg -> 0 <= registry_size reg.
Proof.
  induction 1 as [|[name c] reg Hc _ IH]; simpl; [done|].
  pose proof (total_size_nonneg _ (inv_sizes _ Hc)). simpl in *. lia.
Qed.

Lemma registry_size_member reg name c :
  Forall (fun nc => cache_inv nc.2) reg ->
  OrderedDict.get reg name = Some c ->
  total_size (Cache._entries c) <= registry_size reg.
Proof.
  induction 1 as [|[name0 c0] reg Hc0 Hreg IH]; simpl; [done|].
  pose proof (total_size_nonneg _ (inv_sizes _ Hc0)) as H0.
  pose proof (registry_size_nonneg reg Hreg) as H1. simpl in H0.
  case_decide.
  - intros [= <-]. lia.
  - intros Hg. specialize (IH Hg). lia.
Qed.

Lemma reachable_registry_inv reg :
  Forall (fun nc => reachable clock nc.2) reg ->
  Forall (fun nc => cache_inv nc.2) reg.
Proof.
  intros Hall. eapply Forall_impl; [exact Hall|].
  intros nc. apply reachable_inv.
Qed.

(** X15.  [get_total_memory] of a manager whose caches are reachable is the
    sum of the sizes of all the entries of all its caches; it is not
    negative and no cache accounts for more than it. *)
Theorem get_total_memory_is_sum_of_entries m :
  Forall (fun nc => reachable clock nc.2) (CacheManager._caches m) ->
  CacheManager.get_total_memory m = registry_size (CacheManager._caches m) /\
  0 <= CacheManager.get_total_memory m /\
  (forall name c,
      CacheManager.get_cache m name = Some c ->
      0 <= Cache._total_memory c <= CacheManager.get_total_memory m).
Proof.
  intros Hinv%reachable_registry_inv.
  unfold CacheManager.get_total_memory.
  rewrite (total_memory_of_registry _ Hinv). split_and!.
  - done.
  - by apply registry_size_nonneg.
  - intros name c Hg.
    assert (cache_inv c) as Hc.
    { rewrite Forall_forall in Hinv. apply (Hinv (name, c)).
      by apply od_get_elem. }
    rewrite (inv_memory _ Hc). split.
    + apply total_size_nonneg, Hc.
    + by eapply registry_size_member.
Qed.

Lemma od_get_map_values {V W : Type} (f : V -> W)
    (d : OrderedDict.t string V) name :
  OrderedDict.get (map (fun nc => (nc.1, f nc.2)) d) name
  = f <$> OrderedDict.get d name.
Proof.
  induction d as [|[name0 v0] d IH]; simpl; [done|]. by case_decide.
Qed.

(** X16.  [clear_all] empties every cache and zeroes its counters but keeps
    the registry, the limits and the policies; the memory of all caches is
    then 0.  [shutdown] moreover empties the registry: afterwards every
    name is unregistered and every [get] returns its default. *)
Theorem clear_all_and_shutdown m :
  OrderedDict.keys (CacheManager._caches (CacheManager.clear_all m))
  = OrderedDict.keys (CacheManager._caches m) /\
  (forall name,
      CacheManager.get_cache (CacheManager.clear_all m) name
      = Cache.clear <$> CacheManager.get_cache m name) /\
  CacheManager.get_total_memory (CacheManager.clear_all m) = 0 /\
  CacheManager._caches (CacheManager.shutdown m) = [] /\
  CacheManager.get_total_memory (CacheManager.shutdown m) = 0 /\
  (forall name k default now,
      CacheManager.get clock (CacheManager.shutdown m) name k default now
      = (default, CacheManager.shutdown m, now)).
Proof.
  split_and!; try done.
  - unfold CacheManager.clear_all, OrderedDict.keys. simpl.
    rewrite map_map. done.
  - intros name. apply od_get_map_values.
  - unfold CacheManager.get_total_memory, CacheManager.clear_all. simpl.
    induction (CacheManager._caches m) as [|[name c] reg IH]; simpl; [done|].
    by rewrite py_sum_cons, IH.
Qed.

Lemma total_size_sublist (d' d : OrderedDict.t K (CacheEntry.t K)) :
  sublist d' d ->
  Forall (fun ke => 0 <= CacheEntry.size ke.2) d ->
  total_size d' <= total_size d.
Proof.
  induction 1 as [|x d' d _ IH|x d' d _ IH]; simpl; [done| |];
    rewrite Forall_cons; intros [Hx Hd]; specialize (IH Hd);
    rewrite ?total_size_cons; lia.
Qed.

(** Each cache of the registry is replaced by its own sweep *)
Lemma sweep_each reg now :
  Forall2 (fun nc nc' =>
             nc'.1 = nc.1 /\
             exists s, nc'.2 = (Cache._evict_expired clock nc.2 s).1)
          reg (CacheManager.sweep clock reg now).1.
Proof.
  revert now. induction reg as [|[name c] reg IH]; intros now; simpl.
  - constructor.
  - destruct (Cache._evict_expired clock c now) as [c' now1] eqn:Hc.
    specialize (IH now1).
    destruct (CacheManager.sweep clock reg now1) as [reg' now2].
    simpl in *. constructor; [|done].
    split; [done|]. exists now. simpl. by rewrite Hc.
Qed.

Lemma registry_related_get {R : Cache.t K -> Cache.t K -> Prop} reg reg' name c :
  Forall2 (fun nc nc' => nc'.1 = nc.1 /\ R nc.2 nc'.2) reg reg' ->
  OrderedDict.get reg name = Some c ->
  exists c', OrderedDict.get reg' name = Some c' /\ R c c'.
Proof.
  induction 1 as [|[n0 c0] [n0' c0'] reg reg' [Hn HR] _ IH]; simpl; [done|].
  simpl in Hn. subst n0'. case_decide.
  - intros [= <-]. eauto.
  - done.
Qed.

(** X17.  [update] never adds to a cache: at any time, on a manager whose
    caches are reachable, the registry keeps its names, every cache keeps
    its limits, policy and counters and loses entries only, an entry
    without TTL is never lost, and the memory of all caches does not
    grow. *)
Theorem update_only_drops_entries m now :
  Forall (fun nc => reachable clock nc.2) (CacheManager._caches m) ->
  let m' := (CacheManager.update clock m now).1.1 in
  OrderedDict.keys (CacheManager._caches m')
  = OrderedDict.keys (CacheManager._caches m) /\
  (forall name c,
      CacheManager.get_cache m name = Some c ->
      exists c',
        CacheManager.get_cache m' name = Some c' /\
        evicted_from c c' /\
        (forall k e,
            OrderedDict.get (Cache._entries c) k = Some e ->
            CacheEntry.ttl e = None ->
            OrderedDict.get (Cache._entries c') k = Some e)) /\
  CacheManager.get_total_memory m' <= CacheManager.get_total_memory m.
Proof.
  intros Hreach m'. subst m'. unfold CacheManager.update.
  case_bool_decide as Hdue.
  2: { simpl. split_and!; [done | | lia].
       intros name c Hg. exists c. split_and!; [done | apply evicted_refl | done]. }
  unfold CacheManager._run_garbage_collection.
  pose proof (sweep_each (CacheManager._caches m) (S now)) as Hsweep.
  destruct (CacheManager.sweep clock (CacheManager._caches m) (S now))
    as [reg' now1].
  simpl in *.
  assert (Forall2 (fun nc nc' =>
                     nc'.1 = nc.1 /\
                     (reachable clock nc.2 /\ reachable clock nc'.2 /\
                      evicted_from nc.2 nc'.2 /\
                      forall k e,
                        OrderedDict.get (Cache._entries nc.2) k = Some e ->
                        CacheEntry.ttl e = None ->
                        OrderedDict.get (Cache._entries nc'.2) k = Some e))
                  (CacheManager._caches m) reg') as Hrel.
  { clear Hdue. induction Hsweep as [|nc nc' reg reg' [Hn [s Hs]] _ IH];
      [constructor|].
    apply Forall_cons in Hreach as [Hc Hreach].
    constructor; [|by apply IH].
    split; [done|]. rewrite Hs. split_and!.
    - done.
    - by apply reach_sweep.
    - apply evict_expired_evicted.
    - intros k e Hg Hnone.
      apply (evict_expired_keeps_the_unexpired_aux clock nc.2 s Hc k e Hg Hnone). }
  split_and!.
  - clear -Hrel. induction Hrel as [|nc nc' reg reg' [Hn _] _ IH]; simpl;
      [done|]. by rewrite Hn, IH.
  - intros name c Hg.
    destruct (registry_related_get
                (R := fun c c' =>
                        reachable clock c /\ reachable clock c' /\
                        evicted_from c c' /\
                        forall k e,
                          OrderedDict.get (Cache._entries c) k = Some e ->
                          CacheEntry.ttl e = None ->
                          OrderedDict.get (Cache._entries c') k = Some e)
                _ _ _ _ Hrel Hg)
      as (c' & Hg' & _ & _ & Hev & Hkeep).
    exists c'. done.
  - unfold CacheManager.get_total_memory. simpl.
    rewrite !total_memory_of_registry.
    + clear -Hrel. induction Hrel as [|nc nc' reg reg' [_ (Hc & _ & Hev & _)] _ IH];
        simpl; [done|].
      pose proof (total_size_sublist _ _ (ev_entries _ _ Hev)
                    (inv_sizes _ (reachable_inv clock _ Hc))). lia.
    + by apply reachable_registry_inv.
    + clear -Hrel. induction Hrel as [|nc nc' reg reg' [_ (_ & Hc' & _)] _ IH];
        constructor; [by apply (reachable_inv clock) | done].
Qed.
End RegistryMemory.

(** ** The callers: the clean-up between scenes and the invalidation of a
    level's keys *)

Section Callers.
Context {K : Type} `{EqDecision K}.
Variable clock : nat -> Z.
Implicit Types (m : CacheManager.t K) (c : Cache.t K) (k : K).

Lemma trim_tile_cache_spec fuel c c' :
  SceneManager.trim_tile_cache fuel c = Some c' ->
  evicted_from c c' /\
  (Cache._total_memory c' <= 30 * 1024 * 1024 \/ Cache._entries c' = []).
Proof.
  revert c. induction fuel as [|fuel IH]; intros c; simpl; [done|].
  case_bool_decide as Hover.
  - destruct (Cache._evict_one c) as [evicted c1] eqn:Hone.
    pose proof (evict_one_evicted c) as Hev. rewrite Hone in Hev.
    destruct evicted.
    + intros [Hev' Hpost]%IH. split; [|done]. by eapply evicted_trans.
    + intros [= <-]. split; [done|]. right.
      pose proof (evict_one_false c) as Hfalse. rewrite Hone in Hfalse.
      destruct Hfalse as [Hd Hc]; [done|]. simpl in Hc. by subst c1.
  - intros [= <-]. split; [apply evicted_refl|]. left. lia.
Qed.

Lemma trim_tile_cache_fuel fuel c :
  (length (Cache._entries c) < fuel)%nat ->
  is_Some (SceneManager.trim_tile_cache fuel c).
Proof.
  revert c. induction fuel as [|fuel IH]; intros c Hlen; [lia|].
  simpl. case_bool_decide as Hover; [|done].
  destruct (Cache._evict_one c) as [evicted c1] eqn:Hone.
  destruct evicted; [|done].
  apply IH.
  destruct (Cache._entries c) as [|x d] eqn:Hd.
  { rewrite evict_one_empty in Hone by done. done. }
  pose proof (evict_one_length c) as Hl. rewrite Hone, Hd in Hl.
  simpl in *. specialize (Hl ltac:(done)). lia.
Qed.

(** X18.  [_cleanup_scene] leaves the caches alone after a menu, settings
    or dialog scene.  After a game scene, on a manager whose caches are
    reachable, it returns (with fuel above the number of tile surfaces),
    calls [gc.collect()], and leaves the registry with the same names; the
    cache "collision_groups" is cleared; the cache "tile_surfaces" loses
    entries only, and either holds at most 30 MiB or is untouched because
    all caches together hold at most 150 MiB; every other cache is
    untouched. *)
Theorem cleanup_scene_bounds_tile_memory m :
  Forall (fun nc => reachable clock nc.2) (CacheManager._caches m) ->
  (forall fuel,
      SceneManager._cleanup_scene fuel m SceneManager.MenuScene
      = Some (m, false) /\
      SceneManager._cleanup_scene fuel m SceneManager.SettingsScene
      = Some (m, false) /\
      SceneManager._cleanup_scene fuel m SceneManager.DialogScene
      = Some (m, true)) /\
  (forall fuel,
      (forall c, CacheManager.get_cache m "tile_surfaces" = Some c ->
                 (length (Cache._entries c) < fuel)%nat) ->
      is_Some (SceneManager._cleanup_scene fuel m SceneManager.GameScene)) /\
  (forall fuel m' collected,
      SceneManager._cleanup_scene fuel m SceneManager.GameScene
      = Some (m', collected) ->
      collected = true /\
      OrderedDict.keys (CacheManager._caches m')
      = OrderedDict.keys (CacheManager._caches m) /\
      CacheManager.get_cache m' "collision_groups"
      = Cache.clear <$> CacheManager.get_cache m "collision_groups" /\
      (forall c,
          CacheManager.get_cache m "tile_surfaces" = Some c ->
          exists c',
            CacheManager.get_cache m' "tile_surfaces" = Some c' /\
            evicted_from c c' /\
            (Cache._total_memory c' <= 30 * 1024 * 1024 \/
             c' = c /\
             CacheManager.get_total_memory m' <= 150 * 1024 * 1024)) /\
      (forall name,
          name <> "collision_groups" -> name <> "tile_surfaces" ->
          CacheManager.get_cache m' name = CacheManager.get_cache m name)).
Proof.
  intros Hreach. split; [done|].
  unfold SceneManager._cleanup_scene. simpl.
  set (m1 := match CacheManager.get_cache m "collision_groups" with
             | Some collision_cache =>
                 CacheManager.set_caches m
                   (OrderedDict.set (CacheManager._caches m)
                      "collision_groups" (Cache.clear collision_cache))
             | None => m
             end).
  assert (OrderedDict.keys (CacheManager._caches m1)
          = OrderedDict.keys (CacheManager._caches m)) as Hkeys1.
  { subst m1. destruct (CacheManager.get_cache m "collision_groups") eqn:Hg;
      [|done].
    simpl. apply od_keys_set_present. by eapply od_get_keys. }
  assert (forall name, name <> "collision_groups" ->
            CacheManager.get_cache m1 name = CacheManager.get_cache m name)
    as Hother1.
  { intros name Hne. subst m1.
    destruct (CacheManager.get_cache m "collision_groups"); [|done].
    by apply od_get_set_ne. }
  assert (CacheManager.get_cache m1 "collision_groups"
          = Cache.clear <$> CacheManager.get_cache m "collision_groups")
    as Hcoll1.
  { subst m1. destruct (CacheManager.get_cache m "collision_groups") eqn:Hg;
      simpl; [apply od_get_set | done]. }
  assert (CacheManager.get_cache m1 "tile_surfaces"
          = CacheManager.get_cache m "tile_surfaces") as Htile1
    by (by apply Hother1).
  clearbody m1. split.
  - intros fuel Hfuel. case_bool_decide; [|done].
    rewrite Htile1.
    destruct (CacheManager.get_cache m "tile_surfaces") as [c|] eqn:Hg; [|done].
    destruct (trim_tile_cache_fuel fuel c (Hfuel c eq_refl)) as [c' ->]. done.
  - intros fuel m' collected.
    case_bool_decide as Hhigh.
    + rewrite Htile1.
      destruct (CacheManager.get_cache m "tile_surfaces") as [c|] eqn:Hg.
      * destruct (SceneManager.trim_tile_cache fuel c) as [c'|] eqn:Htrim;
          [|done].
        intros [= <- <-].
        apply trim_tile_cache_spec in Htrim as [Hev Hpost].
        assert (cache_inv c) as Hinv.
        { apply (reachable_inv clock). rewrite Forall_forall in Hreach.
          apply (Hreach ("tile_surfaces", c)). by apply od_get_elem. }
        pose proof (evicted_inv _ _ Hev Hinv) as Hinv'.
        split_and!; [done | | | |].
        -- simpl. rewrite od_keys_set_present; [done|].
           rewrite Hkeys1. by eapply od_get_keys.
        -- unfold CacheManager.get_cache at 1. simpl.
           rewrite od_get_set_ne by done. exact Hcoll1.
        -- intros c0 [= <-]. exists c'. split_and!; [apply od_get_set | done |].
           left. destruct Hpost as [?|Hempty]; [done|].
           rewrite (inv_memory _ Hinv'), Hempty. done.
        -- intros name Hn1 Hn2. unfold CacheManager.get_cache at 1. simpl.
           rewrite od_get_set_ne by done. by apply Hother1.
      * intros [= <- <-]. split_and!; [done | done | done | done |].
        intros name Hn1 _. by apply Hother1.
    + intros [= <- <-]. split_and!; [done | done | done | |].
      * intros c Hg. exists c. rewrite Htile1.
        split_and!; [done | apply evicted_refl |]. right. split; [done | lia].
      * intros name Hn1 _. by apply Hother1.
Qed.
End Callers.

Section LevelKeys.
Variable clock : nat -> Z.

Lemma fold_remove_get_ne (ks : list string) (c : Cache.t string) key :
  key ∉ ks ->
  OrderedDict.get
    (Cache._entries (fold_left (fun c k => (Cache.remove c k).2) ks c)) key
  = OrderedDict.get (Cache._entries c) key.
Proof.
  revert c. induction ks as [|k ks IH]; intros c Hks; simpl; [done|].
  apply not_elem_of_cons in Hks as [Hne Hks].
  rewrite IH by done. rewrite remove_entries. by apply od_get_pop_ne.
Qed.

Lemma fold_remove_reachable (ks : list string) (c : Cache.t string) :
  reachable clock c ->
  reachable clock (fold_left (fun c k => (Cache.remove c k).2) ks c).
Proof.
  revert c. induction ks as [|k ks IH]; intros c Hc; simpl; [done|].
  apply IH. by apply reach_remove.
Qed.

(** X19.  [_invalidate_collision_cache] removes from the cache
    "collision_groups" the three keys of the level (collidable, hazard,
    platform) and the key of every trigger of every layer, and nothing else:
    every other key of that cache keeps its entry, and the other caches are
    untouched.  Without a cache "collision_groups" it does nothing. *)
Theorem invalidate_collision_cache_removes_level_keys
    (level : Level.t) (m : CacheManager.t string) :
  let m' := Level._invalidate_collision_cache level m in
  (CacheManager.get_cache m "collision_groups" = None -> m' = m) /\
  (forall c,
      CacheManager.get_cache m "collision_groups" = Some c ->
      reachable clock c ->
      exists c',
        CacheManager.get_cache m' "collision_groups" = Some c' /\
        reachable clock c' /\
        (forall key, key ∈ Level.cache_keys level ->
                     OrderedDict.get (Cache._entries c') key = None) /\
        (forall key, key ∉ Level.cache_keys level ->
                     OrderedDict.get (Cache._entries c') key
                     = OrderedDict.get (Cache._entries c) key)) /\
  (forall name, name <> "collision_groups" ->
                CacheManager.get_cache m' name = CacheManager.get_cache m name) /\
  String.append (Level._cache_key_prefix level) "_collidable"
    ∈ Level.cache_keys level /\
  String.append (Level._cache_key_prefix level) "_hazard"
    ∈ Level.cache_keys level /\
  String.append (Level._cache_key_prefix level) "_platform"
    ∈ Level.cache_keys level /\
  (forall layer trigger_id,
      layer ∈ Level._layers level -> trigger_id ∈ layer ->
      String.append (Level._cache_key_prefix level)
        (String.append "_trigger_" trigger_id)
      ∈ Level.cache_keys level).
Proof.
  intros m'. subst m'. unfold Level._invalidate_collision_cache.
  split_and!.
  - by intros ->.
  - intros c Hg Hc. rewrite Hg.
    eexists. split; [apply od_get_set|]. split_and!.
    + by apply fold_remove_reachable.
    + intros key Hin. apply od_get_None.
      apply fold_remove_gone; [|done].
      apply (inv_keys _ (reachable_inv clock c Hc)).
    + intros key Hnin. by apply fold_remove_get_ne.
  - intros name Hne.
    destruct (CacheManager.get_cache m "collision_groups"); [|done].
    by apply od_get_set_ne.
  - unfold Level.cache_keys. apply elem_of_app; left.
    apply elem_of_cons; by left.
  - unfold Level.cache_keys. apply elem_of_app; left.
    apply elem_of_cons; right. apply elem_of_cons; by left.
  - unfold Level.cache_keys. apply elem_of_app; left.
    do 2 (apply elem_of_cons; right). apply elem_of_cons; by left.
  - intros layer trigger_id Hlayer Hid. unfold Level.cache_keys.
    apply elem_of_app; right. apply list_elem_of_In, in_flat_map.
    exists layer. split; [by apply list_elem_of_In|].
    apply list_elem_of_In.
    by apply (list_elem_of_fmap_2
                (fun trigger_id =>
                   String.append (Level._cache_key_prefix level)
                     (String.append "_trigger_" trigger_id))).
Qed.
End LevelKeys.

(** ** Clearing one cache *)

Section ClearCache.
Context {K : Type} `{EqDecision K}.
Variable clock : nat -> Z.
Implicit Types (m : CacheManager.t K) (c : Cache.t K) (k : K).
Implicit Types (reg : OrderedDict.t string (Cache.t K)).

Lemma total_memory_set reg name c c' :
  OrderedDict.get reg name = Some c ->
  py_sum (map Cache._total_memory
            (OrderedDict.values (OrderedDict.set reg name c')))
  = py_sum (map Cache._total_memory (OrderedDict.values reg))
    - Cache._total_memory c + Cache._total_memory c'.
Proof.
  induction reg as [|[name0 c0] reg IH]; simpl; [done|].
  destruct (decide (name = name0)) as [->|Hne].
  - intros [= ->]. simpl. rewrite !py_sum_cons. lia.
  - intros Hg. simpl. rewrite !py_sum_cons.
    rewrite (IH Hg). lia.
Qed.

(** X20.  [clear_cache] empties the named cache and zeroes its counters:
    the memory of all caches drops by what that cache accounted for, and
    every [get] on it returns its default.  The registry keeps its names,
    the caches under other names are untouched, and an unregistered name
    changes nothing. *)
Theorem clear_cache_clears_one m name :
  (CacheManager.get_cache m name = None ->
   CacheManager.clear_cache m name = m) /\
  (forall c,
      CacheManager.get_cache m name = Some c ->
      CacheManager.get_cache (CacheManager.clear_cache m name) name
      = Some (Cache.clear c) /\
      CacheManager.get_total_memory (CacheManager.clear_cache m name)
      = CacheManager.get_total_memory m - Cache._total_memory c /\
      (forall k default now,
          (CacheManager.get clock (CacheManager.clear_cache m name)
             name k default now).1.1 = default)) /\
  OrderedDict.keys (CacheManager._caches (CacheManager.clear_cache m name))
  = OrderedDict.keys (CacheManager._caches m) /\
  (forall name', name' <> name ->
      CacheManager.get_cache (CacheManager.clear_cache m name) name'
      = CacheManager.get_cache m name').
Proof.
  unfold CacheManager.clear_cache, CacheManager.get_cache. split_and!.
  - by intros ->.
  - intros c Hg. rewrite Hg. simpl. split_and!.
    + apply od_get_set.
    + unfold CacheManager.get_total_memory. simpl.
      rewrite (total_memory_set _ _ c) by done. simpl. lia.
    + intros k default now. unfold CacheManager.get. simpl.
      by rewrite od_get_set.
  - destruct (OrderedDict.get (CacheManager._caches m) name) eqn:Hg; [|done].
    simpl. apply od_keys_set_present. by eapply od_get_keys.
  - intros name' Hne.
    destruct (OrderedDict.get (CacheManager._caches m) name); [|done].
    by apply od_get_set_ne.
Qed.
End ClearCache.

(** * The further properties on concrete caches *)

Lemma small_lru_1_reachable : reachable ticking_clock small_lru_1.
Proof.
  eapply (reach_put ticking_clock 3 small_lru 1%nat (Other 1) None 0%nat).
  - apply reach_init.
  - reflexivity.
Qed.

Lemma small_lru_2_reachable : reachable ticking_clock small_lru_2.
Proof.
  eapply (reach_put ticking_clock 3 small_lru_1 2%nat (Other 2) None 2%nat).
  - apply small_lru_1_reachable.
  - reflexivity.
Qed.

Lemma read_lru_reachable : reachable ticking_clock read_lru.
Proof.
  unfold read_lru. do 2 apply reach_get. apply small_lru_2_reachable.
Qed.

Lemma aging_lru_1_reachable : reachable ticking_clock aging_lru_1.
Proof.
  eapply (reach_put ticking_clock 3 aging_lru 1%nat (Other 1) None 0%nat).
  - apply reach_init.
  - reflexivity.
Qed.

Lemma no_ttl_never_expires {K : Type} (clock : nat -> Z)
    (d : OrderedDict.t K (CacheEntry.t K)) :
  Forall (fun ke => CacheEntry.ttl ke.2 = None) d ->
  Forall (fun ke => never_expires clock ke.2) d.
Proof.
  intros Hall. eapply Forall_impl; [exact Hall|].
  intros [k e] Hnone s. simpl in *.
  unfold CacheEntry.is_expired. by rewrite Hnone.
Qed.

Lemma small_lru_2_never_expires :
  Forall (fun ke => never_expires ticking_clock ke.2) (Cache._entries small_lru_2).
Proof. apply no_ttl_never_expires. repeat constructor. Qed.

Lemma small_lru_1_never_expires :
  Forall (fun ke => never_expires ticking_clock ke.2) (Cache._entries small_lru_1).
Proof. apply no_ttl_never_expires. repeat constructor. Qed.

Lemma busy_manager_ticking_reachable :
  Forall (fun nc => reachable ticking_clock nc.2)
         (CacheManager._caches (busy_manager ticking_clock)).
Proof.
  set (d := CacheManager._caches (busy_manager ticking_clock)).
  vm_compute in d. subst d.
  constructor; [apply (reach_init ticking_clock "tile_surfaces")|].
  constructor; [apply (reach_init ticking_clock "animation_frames")|].
  constructor.
  { apply (reach_put ticking_clock 11
             (Cache.init "collision_groups" 10 (10 * 1024 * 1024)
                CachePolicy.LRU (Some 5))
             1%nat (Other 1) None 1%nat _ 3%nat).
    - apply reach_init.
    - reflexivity. }
  constructor; [apply (reach_init ticking_clock "level_data")|].
  constructor; [apply (reach_init ticking_clock "sounds")|].
  constructor.
Qed.

Lemma heavy_manager_reachable :
  Forall (fun nc => reachable ticking_clock nc.2)
         (CacheManager._caches heavy_manager).
Proof.
  set (d := CacheManager._caches heavy_manager).
  vm_compute in d. subst d.
  constructor.
  { apply (reach_put ticking_clock 3
             (Cache.init "tile_surfaces" 200 (50 * 1024 * 1024)
                CachePolicy.LRU None)
             1%nat (Surface 8000 8000) None 1%nat _ 3%nat).
    - apply reach_init.
    - reflexivity. }
  constructor; [apply (reach_init ticking_clock "animation_frames")|].
  constructor; [apply (reach_init ticking_clock "collision_groups")|].
  constructor; [apply (reach_init ticking_clock "level_data")|].
  constructor; [apply (reach_init ticking_clock "sounds")|].
  constructor.
Qed.

Lemma reachable_entries_well_formed_witness :
  reachable ticking_clock small_lru_2 /\
  NoDup (OrderedDict.keys (Cache._entries small_lru_2)) /\
  0 <= Cache._total_memory small_lru_2.
Proof.
  split; [apply small_lru_2_reachable|].
  destruct (reachable_entries_well_formed ticking_clock small_lru_2
              small_lru_2_reachable) as (Hnd & _ & Hmem).
  split; [exact Hnd | exact Hmem].
Defined.

Lemma get_stats_of_reachable_witness :
  reachable ticking_clock read_lru /\
  Cache._hits read_lru = 1 /\
  Cache._misses read_lru = 1 /\
  QArith_base.Qle (QArith_base.Qmake 0 1)
    (Cache.stats_hit_rate (Cache.get_stats read_lru)) /\
  QArith_base.Qle (Cache.stats_hit_rate (Cache.get_stats read_lru))
    (QArith_base.Qmake 1 1) /\
  Cache.stats_size (Cache.get_stats read_lru) = entry_count read_lru.
Proof.
  split; [apply read_lru_reachable|].
  destruct (get_stats_of_reachable ticking_clock read_lru read_lru_reachable)
    as (Hlow & Hhigh & _ & Hsize & _).
  split_and!; [reflexivity | reflexivity | exact Hlow | exact Hhigh | exact Hsize].
Defined.

Lemma get_after_put_witness :
  reachable ticking_clock small_lru_1 /\
  Cache.put ticking_clock 3 small_lru_1 2%nat (Other 2) None 2
  = Some (small_lru_2, 4%nat) /\
  exists c'' s',
    Cache.get ticking_clock small_lru_2 2%nat (Other 0) 4
    = (Other 2, c'', s') /\
    Cache._hits c'' = Cache._hits small_lru_2 + 1 /\
    Cache._misses c'' = Cache._misses small_lru_2.
Proof.
  split; [apply small_lru_1_reachable|]. split; [reflexivity|].
  apply (proj2 (get_after_put ticking_clock 3 small_lru_1 2%nat (Other 2) None
                  2%nat small_lru_2 4%nat small_lru_1_reachable eq_refl)
           (Other 0) 4%nat).
  reflexivity.
Defined.

Lemma put_replaces_and_appends_witness :
  reachable ticking_clock small_lru_1 /\
  Cache.put ticking_clock 3 small_lru_1 2%nat (Other 2) None 2
  = Some (small_lru_2, 4%nat) /\
  exists kept e,
    Cache._entries small_lru_2 = kept ++ [(2%nat, e)] /\
    sublist kept (Cache._entries small_lru_1) /\
    CacheEntry.value e = Other 2 /\
    CacheEntry.access_count e = 0.
Proof.
  split; [apply small_lru_1_reachable|]. split; [reflexivity|].
  destruct (put_replaces_and_appends ticking_clock 3 small_lru_1 2%nat (Other 2)
              None 2%nat small_lru_2 4%nat small_lru_1_reachable eq_refl)
    as (kept & e & Hd & Hsub & _ & Hv & Hcount & _).
  exists kept, e. split_and!; [exact Hd | exact Hsub | exact Hv | exact Hcount].
Defined.

Lemma remove_drops_one_key_witness :
  reachable ticking_clock small_lru_2 /\
  1%nat ∈ OrderedDict.keys (Cache._entries small_lru_2) /\
  (Cache.remove small_lru_2 1%nat).1 = true /\
  OrderedDict.get (Cache._entries (Cache.remove small_lru_2 1%nat).2) 1%nat
  = None /\
  Cache.remove (Cache.remove small_lru_2 1%nat).2 1%nat
  = (false, (Cache.remove small_lru_2 1%nat).2).
Proof.
  split; [apply small_lru_2_reachable|].
  destruct (remove_drops_one_key ticking_clock small_lru_2 1%nat
              small_lru_2_reachable) as (Hiff & Hgone & _ & _ & _ & Hagain).
  assert (1%nat ∈ OrderedDict.keys (Cache._entries small_lru_2)) as Hin
    by (apply elem_of_cons; left; reflexivity).
  split_and!; [exact Hin | exact (proj2 Hiff Hin) | exact Hgone | exact Hagain].
Defined.

Lemma get_touches_one_key_witness :
  reachable ticking_clock small_lru_2 /\
  OrderedDict.get
    (Cache._entries (Cache.get ticking_clock small_lru_2 1%nat (Other 0) 4).1.2)
    2%nat
  = OrderedDict.get (Cache._entries small_lru_2) 2%nat /\
  Cache._hits (Cache.get ticking_clock small_lru_2 1%nat (Other 0) 4).1.2
  + Cache._misses (Cache.get ticking_clock small_lru_2 1%nat (Other 0) 4).1.2
  = Cache._hits small_lru_2 + Cache._misses small_lru_2 + 1.
Proof.
  split; [apply small_lru_2_reachable|].
  destruct (get_touches_one_key ticking_clock small_lru_2 1%nat (Other 0) 4%nat
              small_lru_2_reachable) as (Hother & _ & _ & _ & _ & Hcount & _).
  split; [apply Hother; lia | exact Hcount].
Defined.

Lemma get_hit_updates_entry_witness :
  reachable ticking_clock small_lru_2 /\
  OrderedDict.get (Cache._entries small_lru_2) 1%nat
  = Some (CacheEntry.mk 1%nat (Other 1) 0 1 0 None 64) /\
  exists c' e' now',
    Cache.get ticking_clock small_lru_2 1%nat (Other 0) 4
    = (Other 1, c', S now') /\
    OrderedDict.get (Cache._entries c') 1%nat = Some e' /\
    CacheEntry.access_count e' = 1 /\
    CacheEntry.last_accessed e' = ticking_clock now' /\
    OrderedDict.keys (Cache._entries c') = [2%nat; 1%nat].
Proof.
  split; [apply small_lru_2_reachable|]. split; [reflexivity|].
  destruct (get_hit_updates_entry ticking_clock small_lru_2 1%nat
              (CacheEntry.mk 1%nat (Other 1) 0 1 0 None 64) (Other 0) 4%nat
              small_lru_2_reachable eq_refl eq_refl)
    as (c' & e' & now' & Hget & Hg & Hcount & Hlast & _ & _ & _ & _ & _ & _ & _
        & Hlru & _).
  exists c', e', now'.
  split_and!; [exact Hget | exact Hg | exact Hcount | exact Hlast |].
  rewrite (Hlru eq_refl). reflexivity.
Defined.

Lemma put_with_room_evicts_nothing_witness :
  reachable ticking_clock small_lru_1 /\
  Forall (fun ke => never_expires ticking_clock ke.2) (Cache._entries small_lru_1) /\
  exists c' now',
    Cache.put ticking_clock 3 small_lru_1 2%nat (Other 2) None 2
    = Some (c', now') /\
    Cache._entries c'
    = (OrderedDict.pop (Cache._entries small_lru_1) 2%nat).2
      ++ [(2%nat, new_entry ticking_clock small_lru_1 2%nat (Other 2) None 2)] /\
    Cache._total_memory c' = 128.
Proof.
  split; [apply small_lru_1_reachable|].
  split; [apply small_lru_1_never_expires|].
  destruct (put_with_room_evicts_nothing ticking_clock 3 small_lru_1 2%nat
              (Other 2) None 2%nat small_lru_1_reachable
              small_lru_1_never_expires)
    as (c' & now' & Hput & Hd & Hmem);
    [vm_compute; reflexivity | vm_compute; discriminate | lia |].
  exists c', now'. split_and!; [exact Hput | exact Hd | exact Hmem].
Defined.

Lemma put_into_full_cache_evicts_first_witness :
  reachable ticking_clock small_lru_2 /\
  entry_count small_lru_2 = Cache.max_size small_lru_2 /\
  OrderedDict.keys (Cache._entries small_lru_2) = [1%nat; 2%nat] /\
  exists c' now',
    Cache.put ticking_clock 3 small_lru_2 3%nat (Other 3) None 4
    = Some (c', now') /\
    Cache._entries c'
    = [(2%nat, CacheEntry.mk 2%nat (Other 2) 2 3 0 None 64);
       (3%nat, new_entry ticking_clock small_lru_2 3%nat (Other 3) None 4)].
Proof.
  split; [apply small_lru_2_reachable|].
  split; [reflexivity|]. split; [reflexivity|].
  destruct (put_into_full_cache_evicts_first ticking_clock 3 small_lru_2
              1%nat (CacheEntry.mk 1%nat (Other 1) 0 1 0 None 64)
              [(2%nat, CacheEntry.mk 2%nat (Other 2) 2 3 0 None 64)]
              3%nat (Other 3) None 4%nat small_lru_2_reachable)
    as (c' & now' & Hput & Hd & _);
    [discriminate | reflexivity | reflexivity | reflexivity
    | apply small_lru_2_never_expires | vm_compute; discriminate | lia |].
  exists c', now'. split; [exact Hput | exact Hd].
Defined.

Lemma evict_expired_keeps_the_unexpired_witness :
  reachable ticking_clock aging_lru_1 /\
  Cache._entries (Cache._evict_expired ticking_clock aging_lru_1 10).1
  = survivors ticking_clock (Cache._entries aging_lru_1) 10 /\
  survivors ticking_clock (Cache._entries aging_lru_1) 10 = [] /\
  survivors ticking_clock (Cache._entries aging_lru_1) 2
  = Cache._entries aging_lru_1.
Proof.
  split; [apply aging_lru_1_reachable|].
  split; [|split; reflexivity].
  exact (proj1 (evict_expired_keeps_the_unexpired ticking_clock aging_lru_1
                  10%nat aging_lru_1_reachable)).
Defined.

Lemma manager_get_after_put_witness :
  CacheManager.put ticking_clock 11 (CacheManager.init ticking_clock 0).1
    "collision_groups" 1%nat (Other 1) None 1
  = Some (busy_manager ticking_clock, 3%nat) /\
  (CacheManager.get ticking_clock (busy_manager ticking_clock)
     "collision_groups" 1%nat (Other 0) 3).1.1 = Other 1.
Proof.
  split; [reflexivity|].
  apply (manager_get_after_put ticking_clock 11
           (CacheManager.init ticking_clock 0).1 "collision_groups"
           (Cache.init "collision_groups" 10 (10 * 1024 * 1024)
              CachePolicy.LRU (Some 5))
           1%nat (Other 1) None 1%nat (busy_manager ticking_clock) 3%nat).
  - reflexivity.
  - apply reach_init.
  - reflexivity.
  - reflexivity.
Defined.

Lemma get_total_memory_is_sum_of_entries_witness :
  Forall (fun nc => reachable ticking_clock nc.2)
         (CacheManager._caches heavy_manager) /\
  CacheManager.get_total_memory heavy_manager
  = registry_size (CacheManager._caches heavy_manager) /\
  CacheManager.get_total_memory heavy_manager = 256000000.
Proof.
  split; [apply heavy_manager_reachable|].
  split; [|reflexivity].
  exact (proj1 (get_total_memory_is_sum_of_entries ticking_clock heavy_manager
                  heavy_manager_reachable)).
Defined.

Lemma update_only_drops_entries_witness :
  Forall (fun nc => reachable late_clock nc.2)
         (CacheManager._caches (busy_manager late_clock)) /\
  OrderedDict.keys
    (CacheManager._caches
       (CacheManager.update late_clock (busy_manager late_clock) 3).1.1)
  = OrderedDict.keys (CacheManager._caches (busy_manager late_clock)) /\
  CacheManager.get_total_memory
    (CacheManager.update late_clock (busy_manager late_clock) 3).1.1
  <= CacheManager.get_total_memory (busy_manager late_clock).
Proof.
  split; [apply busy_manager_reachable|].
  destruct (update_only_drops_entries late_clock (busy_manager late_clock)
              3%nat busy_manager_reachable) as (Hkeys & _ & Hmem).
  split; [exact Hkeys | exact Hmem].
Defined.

Lemma cleanup_scene_bounds_tile_memory_witness :
  Forall (fun nc => reachable ticking_clock nc.2)
         (CacheManager._caches heavy_manager) /\
  CacheManager.get_total_memory heavy_manager > 150 * 1024 * 1024 /\
  exists m' c',
    SceneManager._cleanup_scene 2 heavy_manager SceneManager.GameScene
    = Some (m', true) /\
    CacheManager.get_cache m' "tile_surfaces" = Some c' /\
    (Cache._total_memory c' <= 30 * 1024 * 1024 \/
     CacheManager.get_total_memory m' <= 150 * 1024 * 1024).
Proof.
  split; [apply heavy_manager_reachable|].
  split; [vm_compute; reflexivity|].
  destruct (cleanup_scene_bounds_tile_memory ticking_clock heavy_manager
              heavy_manager_reachable) as (_ & Hreturns & Hpost).
  destruct (Hreturns 2%nat) as [[m' collected] Hrun].
  { intros c [= <-]. simpl. lia. }
  destruct (Hpost 2%nat m' collected Hrun) as (-> & _ & _ & Htile & _).
  destruct (Htile _ eq_refl) as (c' & Hg & _ & Hbound).
  exists m', c'. split_and!; [exact Hrun | exact Hg |].
  destruct Hbound as [Hsmall | [_ Hlow]]; [by left | by right].
Defined.
